(** * Network-idle detection of sodexo-ofx ([waitForNetworkIdle], src/index.js)

    The detector is a promise executor that closes over a counter
    ([inFlight]), a timer handle ([timeoutId]) and a list of deferred
    clean-up closures ([deferred]).  It arms two kinds of timers with
    [setTimeout] and hangs three listeners on the puppeteer page.

    The embedding threads one explicit [state] through the handlers.  It
    holds the variables of the closure together with the part of the
    JavaScript runtime the closure talks to: the clock, the pending timers,
    the listeners of the page and the state of the promise.

    Timer model.  Time is counted in whole milliseconds since the call.
    [setTimeout cb d] at time [t] makes [cb] due at [t + timer_delay d],
    where [timer_delay] is the delay as Node takes it: [d] itself from 1 to
    2^31 - 1, and 1 for any other value.  The event loop runs the pending
    timer with the earliest due time, and among timers due at the same
    instant the one armed first.  A page event and a timer can fall in the
    same millisecond; which of the two the loop serves first is part of the
    event ([ev_early]).  The run of a call ends when its promise is
    settled; what the loop does to the state afterwards is stated in
    separate lemmas. *)

From Stdlib Require Import Ascii String.
From Stdlib Require Import List ZArith Nnat Lia Bool Arith PeanoNat Sorted.
Import ListNotations.

Set Implicit Arguments.

(** ** Data *)

(** The three page events the detector subscribes to. *)
Inductive event_name : Type :=
| request
| requestfailed
| requestfinished.

(** A page event as the session delivers it: when, which kind, and the
    puppeteer request object that comes with it.  [ev_early] says how the
    loop orders the event with the timers that are due in the millisecond of
    its time stamp: [true] when the event is emitted before they run (its
    emitter was scheduled ahead of them), [false] when they run first. *)
Record event (P : Type) : Type := mkEventAt {
  ev_time : nat;
  ev_name : event_name;
  ev_payload : P;
  ev_early : bool
}.

(** An event that waits for the timers of its millisecond. *)
Definition mkEvent (P : Type) (t : nat) (name : event_name) (payload : P) : event P :=
  mkEventAt t name payload false.

(** How the promise was settled: [resolve(val)] or [reject(err)], the error
    represented by its message. *)
Inductive settlement : Type :=
| Resolved
| Rejected (message : string).

(** The two functions handed to [setTimeout]; [cleanupAndReject] is called
    with the extra argument given to [setTimeout]. *)
Inductive callback : Type :=
| cleanupAndResolve
| cleanupAndReject (err : string).

Record timer : Type := mkTimer {
  tm_id : nat;
  tm_armed : nat;
  tm_due : nat;
  tm_cb : callback
}.

(** Identity of a listener function: the two closures of this call, or some
    other function registered on the page by somebody else. *)
Inductive listener : Type :=
| L_onRequest
| L_onResponse
| L_foreign (n : nat).

(** The three closures pushed on [deferred], in the order of the source. *)
Inductive deferred_fn : Type :=
| D_clearGlobalTimeout
| D_clearTimeout
| D_removeListeners.

(** The second argument of [waitForNetworkIdle]; [None] is a property that
    is absent ([undefined]), and for [globalTimeout] also [null]. *)
Record options : Type := mkOptions {
  opt_timeout : option nat;
  opt_requests : option Z;
  opt_globalTimeout : option nat
}.

Definition no_options : options := mkOptions None None None.

(** The puppeteer page: its default navigation timeout and the listeners
    other code has attached to it. *)
Record page : Type := mkPage {
  _defaultNavigationTimeout : nat;
  page_listeners : list (event_name * nat)
}.

(** The parameters once the defaults are filled in. *)
Record config : Type := mkConfig {
  timeout : nat;
  requests : Z;
  globalTimeout : nat
}.

Record state : Type := mkState {
  (* runtime *)
  now : nat;
  nextId : nat;
  timers : list timer;
  listeners : list (event_name * listener);
  promise : option (settlement * nat);
  (* closure of the promise executor *)
  cfg : config;
  deferred : list deferred_fn;
  globalTimeoutId : nat;
  timeoutId : nat;
  inFlight : Z
}.

(** ** Field updates *)

Definition set_now (v : nat) (st : state) : state :=
  mkState v (nextId st) (timers st) (listeners st) (promise st) (cfg st)
          (deferred st) (globalTimeoutId st) (timeoutId st) (inFlight st).

Definition set_nextId (v : nat) (st : state) : state :=
  mkState (now st) v (timers st) (listeners st) (promise st) (cfg st)
          (deferred st) (globalTimeoutId st) (timeoutId st) (inFlight st).

Definition set_timers (v : list timer) (st : state) : state :=
  mkState (now st) (nextId st) v (listeners st) (promise st) (cfg st)
          (deferred st) (globalTimeoutId st) (timeoutId st) (inFlight st).

Definition set_listeners (v : list (event_name * listener)) (st : state) : state :=
  mkState (now st) (nextId st) (timers st) v (promise st) (cfg st)
          (deferred st) (globalTimeoutId st) (timeoutId st) (inFlight st).

Definition set_promise (v : option (settlement * nat)) (st : state) : state :=
  mkState (now st) (nextId st) (timers st) (listeners st) v (cfg st)
          (deferred st) (globalTimeoutId st) (timeoutId st) (inFlight st).

Definition set_deferred (v : list deferred_fn) (st : state) : state :=
  mkState (now st) (nextId st) (timers st) (listeners st) (promise st) (cfg st)
          v (globalTimeoutId st) (timeoutId st) (inFlight st).

Definition set_globalTimeoutId (v : nat) (st : state) : state :=
  mkState (now st) (nextId st) (timers st) (listeners st) (promise st) (cfg st)
          (deferred st) v (timeoutId st) (inFlight st).

Definition set_timeoutId (v : nat) (st : state) : state :=
  mkState (now st) (nextId st) (timers st) (listeners st) (promise st) (cfg st)
          (deferred st) (globalTimeoutId st) v (inFlight st).

Definition set_inFlight (v : Z) (st : state) : state :=
  mkState (now st) (nextId st) (timers st) (listeners st) (promise st) (cfg st)
          (deferred st) (globalTimeoutId st) (timeoutId st) v.

(** ** The runtime: timers, listeners, the promise *)

(** The longest delay a timer of the runtime takes, 2^31 - 1 ms. *)
Definition TIMEOUT_MAX : N := 2147483647%N.

(** The delay a timer runs with: a delay below 1 or above [TIMEOUT_MAX] is
    set to 1. *)
Definition timer_delay (delay : nat) : nat :=
  if (1 <=? delay) && (N.of_nat delay <=? TIMEOUT_MAX)%N then delay else 1.

(** [setTimeout(cb, delay)]: a fresh handle, the timer appended to the
    pending ones. *)
Definition setTimeout (cb : callback) (delay : nat) (st : state) : nat * state :=
  let id := nextId st in
  (id, set_nextId (S id)
         (set_timers
            (timers st ++ [mkTimer id (now st) (now st + timer_delay delay) cb]) st)).

(** [clearTimeout(id)]: drops the timer if it is still pending, does nothing
    otherwise. *)
Definition clearTimeout (id : nat) (st : state) : state :=
  set_timers (filter (fun tm => negb (tm_id tm =? id)) (timers st)) st.

Definition event_name_eqb (a b : event_name) : bool :=
  match a, b with
  | request, request => true
  | requestfailed, requestfailed => true
  | requestfinished, requestfinished => true
  | _, _ => false
  end.

Definition listener_eqb (a b : listener) : bool :=
  match a, b with
  | L_onRequest, L_onRequest => true
  | L_onResponse, L_onResponse => true
  | L_foreign n, L_foreign m => n =? m
  | _, _ => false
  end.

Definition registration_eqb (a b : event_name * listener) : bool :=
  event_name_eqb (fst a) (fst b) && listener_eqb (snd a) (snd b).

(** [page.on(name, fn)] *)
Definition page_on (name : event_name) (fn : listener) (st : state) : state :=
  set_listeners (listeners st ++ [(name, fn)]) st.

Fixpoint remove_first (x : event_name * listener)
         (l : list (event_name * listener)) : list (event_name * listener) :=
  match l with
  | [] => []
  | y :: l' => if registration_eqb x y then l' else y :: remove_first x l'
  end.

(** [page.removeListener(name, fn)]: removes the most recently added
    registration of [fn] for [name], if there is one. *)
Definition removeListener (name : event_name) (fn : listener) (st : state) : state :=
  set_listeners (rev (remove_first (name, fn) (rev (listeners st)))) st.

(** Settling a promise that is already settled does nothing. *)
Definition settle (o : settlement) (st : state) : state :=
  match promise st with
  | None => set_promise (Some (o, now st)) st
  | Some _ => st
  end.

Definition settled (st : state) : bool :=
  match promise st with
  | Some _ => true
  | None => false
  end.

(** ** The closures of [waitForNetworkIdle] *)

Definition run_deferred (d : deferred_fn) (st : state) : state :=
  match d with
  | D_clearGlobalTimeout => clearTimeout (globalTimeoutId st) st
  | D_clearTimeout => clearTimeout (timeoutId st) st
  | D_removeListeners =>
      removeListener requestfinished L_onResponse
        (removeListener requestfailed L_onResponse
           (removeListener request L_onRequest st))
  end.

(** [deferred.reverse().forEach(fn => fn())]: [reverse] works in place, so
    the reversed array is what [deferred] holds afterwards. *)
Definition cleanup (st : state) : state :=
  let d := rev (deferred st) in
  fold_left (fun s fn => run_deferred fn s) d (set_deferred d st).

Definition run_callback (cb : callback) (st : state) : state :=
  match cb with
  | cleanupAndResolve => settle Resolved (cleanup st)
  | cleanupAndReject err => settle (Rejected err) (cleanup st)
  end.

Definition onRequest (st : state) : state :=
  let st1 := set_inFlight (inFlight st + 1)%Z st in
  if (requests (cfg st1) <? inFlight st1)%Z
  then clearTimeout (timeoutId st1) st1
  else st1.

Definition onResponse (st : state) : state :=
  if (inFlight st =? 0)%Z then st
  else
    let st1 := set_inFlight (inFlight st - 1)%Z st in
    if (inFlight st1 <=? requests (cfg st1))%Z
    then let (id, st2) := setTimeout cleanupAndResolve (timeout (cfg st1)) st1 in
         set_timeoutId id st2
    else st1.

Definition timeout_message : string := "Waiting for network idle timed out".

(** Destructuring with defaults, and the [null] test on [globalTimeout]. *)
Definition resolve_options (pg : page) (o : options) : config :=
  mkConfig
    (match opt_timeout o with Some t => t | None => 500 end)
    (match opt_requests o with Some r => r | None => 0%Z end)
    (match opt_globalTimeout o with
     | Some g => g
     | None => _defaultNavigationTimeout pg
     end).

Definition foreign_listeners (pg : page) : list (event_name * listener) :=
  map (fun r => (fst r, L_foreign (snd r))) (page_listeners pg).

Definition push_deferred (d : deferred_fn) (st : state) : state :=
  set_deferred (deferred st ++ [d]) st.

(** The state the promise executor leaves behind when it returns: both
    timers armed, the three listeners attached, three closures deferred. *)
Definition waitForNetworkIdle (pg : page) (o : options) : state :=
  let c := resolve_options pg o in
  let st0 := mkState 0 0 [] (foreign_listeners pg) None c [] 0 0 0%Z in
  let (gid, st1) := setTimeout (cleanupAndReject timeout_message) (globalTimeout c) st0 in
  let st2 := push_deferred D_clearGlobalTimeout (set_globalTimeoutId gid st1) in
  let st3 := set_inFlight 0%Z st2 in
  let (tid, st4) := setTimeout cleanupAndResolve (timeout c) st3 in
  let st5 := push_deferred D_clearTimeout (set_timeoutId tid st4) in
  let st6 := page_on requestfinished L_onResponse
               (page_on requestfailed L_onResponse
                  (page_on request L_onRequest st5)) in
  push_deferred D_removeListeners st6.

(** ** The event loop *)

(** The pending timer that runs next: earliest due time, and among equals
    the one armed first. *)
Fixpoint next_timer (l : list timer) : option timer :=
  match l with
  | [] => None
  | tm :: l' =>
      match next_timer l' with
      | Some tm' => if tm_due tm' <? tm_due tm then Some tm' else Some tm
      | None => Some tm
      end
  end.

(** A timer expires: it leaves the pending ones, the clock is at its due
    time at least, its callback runs. *)
Definition fire (tm : timer) (st : state) : state :=
  run_callback (tm_cb tm)
    (set_now (Nat.max (now st) (tm_due tm))
       (set_timers (filter (fun x => negb (tm_id x =? tm_id tm)) (timers st)) st)).

Definition due_by (limit : option nat) (tm : timer) : bool :=
  match limit with
  | Some t => tm_due tm <=? t
  | None => true
  end.

(** Runs expired timers, in order, up to the time [limit] (without bound
    for [None]) or until the promise is settled. *)
Fixpoint timers_phase (fuel : nat) (limit : option nat) (st : state) : state :=
  match fuel with
  | O => st
  | S fuel' =>
      if settled st then st
      else match next_timer (timers st) with
           | Some tm =>
               if due_by limit tm then timers_phase fuel' limit (fire tm st) else st
           | None => st
           end
  end.

Definition run_timers (limit : option nat) (st : state) : state :=
  timers_phase (length (timers st)) limit st.

Section Events.

Variable P : Type.

(** The handlers are declared without parameters: whatever the emitter
    passes is dropped. *)
Definition call_listener (fn : listener) (payload : P) (st : state) : state :=
  match fn with
  | L_onRequest => onRequest st
  | L_onResponse => onResponse st
  | L_foreign _ => st
  end.

(** [page.emit(name, payload)]: calls the listeners registered for [name]
    at the time of the call, in the order of their registration. *)
Definition emit (name : event_name) (payload : P) (st : state) : state :=
  fold_left
    (fun s r => if event_name_eqb (fst r) name
                then call_listener (snd r) payload s else s)
    (listeners st) st.

(** The event is served before a timer due at [due]. *)
Definition beats (e : event P) (due : nat) : bool :=
  if ev_early e then ev_time e <=? due else ev_time e <? due.

(** The timers the loop runs before it comes to the event: those due
    before its time stamp, and those due at its time stamp unless the event
    is early. *)
Definition timers_before (e : event P) (st : state) : state :=
  if ev_early e then
    match ev_time e with
    | O => st
    | S t => run_timers (Some t) st
    end
  else run_timers (Some (ev_time e)) st.

(** One page event: the timers ahead of it run first; once the promise is
    settled the run of the call is over. *)
Definition deliver (e : event P) (st : state) : state :=
  if settled st then st
  else
    let st1 := timers_before e st in
    if settled st1 then st1
    else emit (ev_name e) (ev_payload e)
           (set_now (Nat.max (now st1) (ev_time e)) st1).

Definition deliver_all (tr : list (event P)) (st : state) : state :=
  fold_left (fun s e => deliver e s) tr st.

(** The whole call: the executor, then the page events of [tr], then the
    timers that are left, up to the moment the promise is settled. *)
Definition run (pg : page) (o : options) (tr : list (event P)) : state :=
  run_timers None (deliver_all tr (waitForNetworkIdle pg o)).

End Events.

Arguments emit {P} name payload st.
Arguments beats {P} e due.
Arguments timers_before {P} e st.
Arguments deliver {P} e st.
Arguments deliver_all {P} tr st.
Arguments run {P} pg o tr.

Definition outcome (st : state) : option settlement :=
  option_map fst (promise st).

(** ** Event sequences *)

(** The counter as the two handlers maintain it: one up on [request], one
    down on the other two events unless it is at zero. *)
Definition count_step (n : Z) (name : event_name) : Z :=
  match name with
  | request => (n + 1)%Z
  | _ => if (n =? 0)%Z then 0%Z else (n - 1)%Z
  end.

(** The plain difference: started events minus finished and failed ones. *)
Definition raw_step (n : Z) (name : event_name) : Z :=
  match name with
  | request => (n + 1)%Z
  | _ => (n - 1)%Z
  end.

Section Traces.

Variable P : Type.

(** The values a counter takes after each event of a trace. *)
Fixpoint running (step : Z -> event_name -> Z) (n : Z) (tr : list (event P)) : list Z :=
  match tr with
  | [] => []
  | e :: tr' => step n (ev_name e) :: running step (step n (ev_name e)) tr'
  end.

(** The counter, [n] to begin with, is above the threshold after every
    event of [tr], up to the first one that the deadline timer is served
    before. *)
Fixpoint stays_above (c : config) (n : Z) (tr : list (event P)) : Prop :=
  match tr with
  | [] => True
  | e :: tr' =>
      beats e (timer_delay (globalTimeout c)) = false \/
      ((requests c < count_step n (ev_name e))%Z /\
       stays_above c (count_step n (ev_name e)) tr')
  end.

(** A finished or failed request brings the counter to the threshold or
    below only from above it: every such step of [tr], the counter being
    [n] to begin with, crosses the threshold. *)
Fixpoint crossings_only (c : config) (n : Z) (tr : list (event P)) : Prop :=
  match tr with
  | [] => True
  | e :: tr' =>
      (ev_name e <> request -> (0 < n)%Z -> (n - 1 <= requests c)%Z ->
       (requests c < n)%Z) /\
      crossings_only c (count_step n (ev_name e)) tr'
  end.

(** Time of the last event that changes a counter stepping by [step], the
    counter being [n] and the last change [t] to begin with. *)
Fixpoint last_change_from (step : Z -> event_name -> Z) (n : Z) (t : nat)
         (tr : list (event P)) : nat :=
  match tr with
  | [] => t
  | e :: tr' =>
      let n' := step n (ev_name e) in
      last_change_from step n' (if (n' =? n)%Z then t else ev_time e) tr'
  end.

(** Time of the last change of the counter; the time of the call when it
    never changes. *)
Definition last_change (step : Z -> event_name -> Z) (tr : list (event P)) : nat :=
  last_change_from step 0%Z 0 tr.

(** What is left of an event once its payload is dropped. *)
Definition erase (e : event P) : nat * event_name * bool :=
  (ev_time e, ev_name e, ev_early e).

End Traces.

Arguments running {P} step n tr.
Arguments stays_above {P} c n tr.
Arguments crossings_only {P} c n tr.
Arguments last_change_from {P} step n t tr.
Arguments last_change {P} step tr.
Arguments erase {P} e.

(** ** Predicates on states *)

Definition deadline_timer (c : config) : timer :=
  mkTimer 0 0 (timer_delay (globalTimeout c)) (cleanupAndReject timeout_message).

Definition own_listeners : list (event_name * listener) :=
  [(request, L_onRequest); (requestfailed, L_onResponse);
   (requestfinished, L_onResponse)].

(** A timer armed for the quiet period. *)
Definition quiet_timer (st : state) (tm : timer) : Prop :=
  tm_cb tm = cleanupAndResolve /\
  0 < tm_id tm < nextId st /\
  tm_due tm = tm_armed tm + timer_delay (timeout (cfg st)) /\
  now st <= tm_due tm.

(** What holds of every state between the return of the executor and the
    settlement: the deadline timer is pending in front of the quiet timers
    armed so far, the three listeners are attached behind those of the page,
    the three clean-up closures are deferred. *)
Record waiting (pg : page) (c : config) (st : state) : Prop := mkWaiting {
  w_promise : promise st = None;
  w_cfg : cfg st = c;
  w_deferred : deferred st = [D_clearGlobalTimeout; D_clearTimeout; D_removeListeners];
  w_listeners : listeners st = foreign_listeners pg ++ own_listeners;
  w_gid : globalTimeoutId st = 0;
  w_tid : 0 < timeoutId st < nextId st;
  w_now : now st <= timer_delay (globalTimeout c);
  w_timers : exists qs, timers st = deadline_timer c :: qs /\ Forall (quiet_timer st) qs;
  w_inFlight : (0 <= inFlight st)%Z
}.

(** What a page event does to the closure while the listeners are on. *)
Definition handler (name : event_name) : state -> state :=
  match name with
  | request => onRequest
  | requestfailed => onResponse
  | requestfinished => onResponse
  end.

Definition settlement_of (cb : callback) : settlement :=
  match cb with
  | cleanupAndResolve => Resolved
  | cleanupAndReject err => Rejected err
  end.

(** The quiet timer the executor arms. *)
Definition first_quiet_timer (c : config) : timer :=
  mkTimer 1 0 (timer_delay (timeout c)) cleanupAndResolve.

(** The first quiet timer is pending behind the deadline timer, and the
    counter stays at or below the threshold over the events to come. *)
Definition calm (P : Type) (c : config) (tr : list (event P)) (st : state) : Prop :=
  (exists qs, timers st = deadline_timer c :: first_quiet_timer c :: qs) /\
  Forall (fun n => (n <= requests c)%Z) (running count_step (inFlight st) tr).

(** At most one quiet timer is pending, the one [timeoutId] names, and
    none when the counter is above the threshold and above 0. *)
Definition tracked (c : config) (st : state) : Prop :=
  (timers st = [deadline_timer c] \/
   exists tm, timers st = [deadline_timer c; tm] /\ tm_id tm = timeoutId st) /\
  ((Z.max 0 (requests c) < inFlight st)%Z -> timers st = [deadline_timer c]).

(** The quiet timers are tracked and the events to come arm one only on a
    crossing of the threshold. *)
Definition tracking (P : Type) (c : config) (tr : list (event P)) (st : state) : Prop :=
  tracked c st /\ crossings_only c (inFlight st) tr.

(** The counter is above the threshold, no quiet timer is pending, and what
    follows keeps the counter up. *)
Definition busy_from (P : Type) (c : config) (tr : list (event P)) (st : state) : Prop :=
  timers st = [deadline_timer c] /\
  (requests c < inFlight st)%Z /\
  stays_above c (inFlight st) tr.

(** The quiet timers behave as one: the timer [timeoutId] names is pending
    exactly when nothing is in flight, and no other quiet timer is. *)
Definition one_quiet_timer (c : config) (st : state) : Prop :=
  (inFlight st = 0%Z /\
   exists tm, timers st = [deadline_timer c; tm] /\ tm_id tm = timeoutId st) \/
  ((0 < inFlight st)%Z /\ timers st = [deadline_timer c]).

(** ** The inputs of the examples *)

Definition scenario_page : page := mkPage 3000 [].

Definition scenario_options : options := mkOptions (Some 500) (Some 0%Z) (Some 3000).

Definition scenario_trace : list (event unit) :=
  [mkEvent 0 request tt; mkEvent 100 requestfinished tt].

Definition busy_options : options := mkOptions (Some 500) (Some 0%Z) (Some 1000).

Definition busy_trace : list (event unit) :=
  [mkEvent 0 request tt; mkEvent 200 request tt].

Definition tolerant_options : options := mkOptions (Some 500) (Some 1%Z) (Some 3000).

(** ** Further notions on traces and states *)

(** The events come in the order of their time stamps. *)
Definition in_time_order (P : Type) (tr : list (event P)) : Prop :=
  StronglySorted (fun a b => ev_time a <= ev_time b) tr.

(** A failed request read as a finished one. *)
Definition as_finished (P : Type) (e : event P) : event P :=
  match ev_name e with
  | requestfailed => mkEventAt (ev_time e) requestfinished (ev_payload e) (ev_early e)
  | _ => e
  end.

(** [pre] are the events delivered so far: the clock has passed them, and a
    quiet timer that is pending was armed when the last started request of
    [pre] had been delivered. *)
Definition quiet_since (P : Type) (c : config) (pre : list (event P)) (st : state) : Prop :=
  Forall (fun e => ev_time e <= now st) pre /\
  one_quiet_timer c st /\
  forall tm, In tm (timers st) -> tm_cb tm = cleanupAndResolve ->
             Forall (fun e => ev_name e = request -> ev_time e <= tm_armed tm) pre.

(** [tr] is what is left of [full] once [pre] has been delivered. *)
Definition delivered (P : Type) (c : config) (full tr : list (event P)) (st : state) : Prop :=
  exists pre, full = pre ++ tr /\ quiet_since c pre st.

(** No event, delivered or to come, is later than [bound]; every pending
    timer was armed in the past; and whenever the counter is at or below the
    threshold some quiet timer is pending. *)
Definition settling (P : Type) (c : config) (bound : nat) (tr : list (event P))
           (st : state) : Prop :=
  Forall (fun e => ev_time e <= bound) tr /\
  now st <= bound /\
  Forall (fun tm => tm_armed tm <= now st) (timers st) /\
  ((inFlight st <= requests c)%Z ->
   exists tm, In tm (timers st) /\ tm_cb tm = cleanupAndResolve).

(** * The rest of the program *)

(** ** Values thrown and exit codes ([handleError], the command handler) *)

(** The JavaScript values a failing [main] can throw, as far as
    [handleError] looks at them: the primitives, an [Error] with its
    [message] and [exitCode] properties, and any other object seen through
    its [exitCode] property ([VUndefined] when it has none).  Numbers are
    the integers and [NaN]. *)
Inductive value : Type :=
| VUndefined
| VNull
| VBoolean (b : bool)
| VNumber (n : Z)
| VNaN
| VString (s : string)
| VError (message : value) (exitCode : value)
| VObject (exitCode : value).

(** The conversion to a boolean that [&&], [||] and a condition apply. *)
Definition truthy (v : value) : bool :=
  match v with
  | VUndefined | VNull | VNaN => false
  | VBoolean b => b
  | VNumber n => negb (n =? 0)%Z
  | VString s => negb (String.eqb s "")
  | VError _ _ | VObject _ => true
  end.

(** [v.exitCode], for a value that is neither [undefined] nor [null]. *)
Definition exitCode_of (v : value) : value :=
  match v with
  | VError _ e => e
  | VObject e => e
  | _ => VUndefined
  end.

Definition js_or (a b : value) : value := if truthy a then a else b.

(** [extra.includes(s)] *)
Definition includes (extra : list string) (s : string) : bool :=
  existsb (String.eqb s) extra.

(** [handleError({extra}, error)]: what goes to [console.error], and the
    value returned. *)
Definition handleError (extra : list string) (error : value) : value * value :=
  let error :=
    match error with
    | VError message _ => if negb (includes extra "traceback") then message else error
    | _ => error
    end in
  (error, js_or (if truthy error then exitCode_of error else error) (VNumber 1)).

(** The command handler,
    [pTry(() => main(argv)).catch(handleError.bind(null, argv))
       .then(exitCode => exitCode || 0).then(process.exit)]:
    the value handed to [process.exit], [main] having either completed
    ([None]: it returns nothing) or thrown a value. *)
Definition command_exit (extra : list string) (thrown : option value) : value :=
  let exitCode :=
    match thrown with
    | None => VUndefined
    | Some error => snd (handleError extra error)
    end in
  js_or exitCode (VNumber 0).

(** ** The time of day of a transaction *)

(** The characters the [.] of a regular expression does not match, among
    those of one byte. *)
Definition is_line_terminator (a : ascii) : bool :=
  (nat_of_ascii a =? 10) || (nat_of_ascii a =? 13).

Fixpoint no_line_terminator (s : string) : bool :=
  match s with
  | EmptyString => true
  | String a s' => negb (is_line_terminator a) && no_line_terminator s'
  end.

(** [s.replace(':', '')]: a string pattern replaces the first occurrence
    only. *)
Fixpoint replace_colon (s : string) : string :=
  match s with
  | EmptyString => EmptyString
  | String a s' => if Ascii.eqb a ":" then s' else String a (replace_colon s')
  end.

Fixpoint spaces (n : nat) : string :=
  match n with
  | O => EmptyString
  | S k => String " " (spaces k)
  end.

(** [s.padStart(n)] *)
Definition padStart (n : nat) (s : string) : string :=
  (spaces (n - String.length s) ++ s)%string.

(** [s.match(/.{1,2}/g)]: from left to right, two characters at a time
    when two can be had, line terminators being skipped; the empty list
    stands for [null]. *)
Fixpoint match_pairs (s : string) : list string :=
  match s with
  | EmptyString => []
  | String a s1 =>
      if is_line_terminator a then match_pairs s1
      else
        match s1 with
        | EmptyString => [String a EmptyString]
        | String b s2 =>
            if is_line_terminator b
            then String a EmptyString :: match_pairs s2
            else String a (String b EmptyString) :: match_pairs s2
        end
  end.

(** The expression bound to [hour] in [main]; [None] when [match] gives
    [null] and [join] is called on it. *)
Definition hour (unsafeHour : string) : option string :=
  if String.length unsafeHour =? 8 then Some unsafeHour
  else
    match match_pairs (padStart 8 (replace_colon unsafeHour)) with
    | [] => None
    | l => Some (String.concat ":" l)
    end.

(** * Properties *)

(** ** Delays *)

Lemma timer_delay_pos (d : nat) : 1 <= timer_delay d.
Proof.
  unfold timer_delay. destruct (1 <=? d) eqn:E; simpl; [|lia].
  apply Nat.leb_le in E. destruct (N.of_nat d <=? TIMEOUT_MAX)%N; lia.
Qed.

(** A delay from 1 to 2^31 - 1 is taken as it is. *)
Lemma timer_delay_in_range (d : nat) :
  1 <= d -> (N.of_nat d <= TIMEOUT_MAX)%N -> timer_delay d = d.
Proof.
  intros H1 H2. unfold timer_delay.
  apply Nat.leb_le in H1. apply N.leb_le in H2. now rewrite H1, H2.
Qed.

(** A delay above 2^31 - 1 becomes 1. *)
Lemma timer_delay_above (d : nat) :
  (TIMEOUT_MAX < N.of_nat d)%N -> timer_delay d = 1.
Proof.
  intros H. unfold timer_delay. apply N.leb_gt in H. rewrite H.
  now rewrite andb_false_r.
Qed.

(** ** Choice of the next timer *)

Lemma next_timer_some (l : list timer) (tm : timer) :
  next_timer l = Some tm ->
  In tm l /\ Forall (fun x => tm_due tm <= tm_due x) l.
Proof.
  revert tm; induction l as [|a l IH]; intros tm H; simpl in H; [discriminate|].
  destruct (next_timer l) as [b|] eqn:E.
  - destruct (IH b eq_refl) as [Hin Hall].
    destruct (tm_due b <? tm_due a) eqn:C; inversion H; subst; clear H.
    + apply Nat.ltb_lt in C. split; [now right|].
      constructor; [lia|exact Hall].
    + apply Nat.ltb_ge in C. split; [now left|].
      constructor; [lia|].
      eapply Forall_impl; [|exact Hall]. simpl; intros; lia.
  - inversion H; subst; clear H. destruct l; [|simpl in E; destruct (next_timer l); [destruct (_ <? _)|]; discriminate].
    split; [now left|]. constructor; [lia|constructor].
Qed.

Lemma next_timer_none (l : list timer) : next_timer l = None -> l = [].
Proof.
  destruct l as [|a l]; [reflexivity|]. simpl.
  destruct (next_timer l); [destruct (_ <? _)|]; discriminate.
Qed.

(** A timer in front of the list that nobody undercuts runs next. *)
Lemma next_timer_head (a : timer) (l : list timer) :
  Forall (fun x => tm_due a <= tm_due x) l -> next_timer (a :: l) = Some a.
Proof.
  intros H. simpl. destruct (next_timer l) as [b|] eqn:E; [|reflexivity].
  apply next_timer_some in E. destruct E as [Hin _].
  rewrite Forall_forall in H. specialize (H b Hin).
  destruct (tm_due b <? tm_due a) eqn:C; [|reflexivity].
  apply Nat.ltb_lt in C. lia.
Qed.

(** The second timer runs next when it is strictly earlier than the first
    and nobody behind undercuts it. *)
Lemma next_timer_second (a b : timer) (l : list timer) :
  tm_due b < tm_due a ->
  Forall (fun x => tm_due b <= tm_due x) l ->
  next_timer (a :: b :: l) = Some b.
Proof.
  intros Hlt H. change (next_timer (a :: b :: l)) with
    (match next_timer (b :: l) with
     | Some tm' => if tm_due tm' <? tm_due a then Some tm' else Some a
     | None => Some a end).
  rewrite next_timer_head by exact H.
  apply Nat.ltb_lt in Hlt. now rewrite Hlt.
Qed.

(** ** The state while the call is waiting *)

Lemma waiting_init (pg : page) (o : options) :
  waiting pg (resolve_options pg o) (waitForNetworkIdle pg o).
Proof.
  constructor; simpl; try reflexivity; try lia.
  - now rewrite <- !app_assoc.
  - exists [mkTimer 1 0 (timer_delay (timeout (resolve_options pg o))) cleanupAndResolve].
    split; [reflexivity|].
    constructor; [|constructor].
    unfold quiet_timer; simpl. repeat split; lia.
Qed.

Lemma filter_quiet (st st' : state) (f : timer -> bool) (qs : list timer) :
  (forall tm, quiet_timer st tm -> quiet_timer st' tm) ->
  Forall (quiet_timer st) qs -> Forall (quiet_timer st') (filter f qs).
Proof.
  intros Hmono H. rewrite Forall_forall in *. intros tm Hin.
  apply filter_In in Hin. destruct Hin as [Hin _]. auto.
Qed.

Lemma waiting_onRequest (pg : page) (c : config) (st : state) :
  waiting pg c st -> waiting pg c (onRequest st).
Proof.
  intros [Hp Hc Hd Hl Hg Ht Hn [qs [Hq Hall]] Hi].
  unfold onRequest; simpl.
  destruct (requests (cfg st) <? inFlight st + 1)%Z;
    constructor; simpl; auto; try lia.
  - exists (filter (fun tm => negb (tm_id tm =? timeoutId st)) qs).
    rewrite Hq. simpl.
    destruct (timeoutId st) as [|k] eqn:E; [lia|]. simpl.
    split; [reflexivity|].
    eapply filter_quiet; [|exact Hall]. intros tm H; exact H.
  - exists qs. split; [exact Hq|].
    eapply Forall_impl; [|exact Hall]. intros tm H; exact H.
Qed.

Lemma waiting_onResponse (pg : page) (c : config) (st : state) :
  waiting pg c st -> waiting pg c (onResponse st).
Proof.
  intros W. pose proof W as [Hp Hc Hd Hl Hg Ht Hn [qs [Hq Hall]] Hi].
  unfold onResponse.
  destruct (inFlight st =? 0)%Z eqn:E0; [exact W|].
  apply Z.eqb_neq in E0. simpl.
  destruct (inFlight st - 1 <=? requests (cfg st))%Z;
    constructor; simpl; auto; try lia.
  - exists (qs ++ [mkTimer (nextId st) (now st) (now st + timer_delay (timeout (cfg st)))
                            cleanupAndResolve]).
    rewrite Hq. split; [reflexivity|].
    apply Forall_app. split.
    + eapply Forall_impl; [|exact Hall].
      unfold quiet_timer; simpl. intros tm (A & B & C & D). repeat split; auto; lia.
    + constructor; [|constructor].
      unfold quiet_timer; simpl. repeat split; lia.
  - exists qs. split; [exact Hq|].
    eapply Forall_impl; [|exact Hall]. intros tm H; exact H.
Qed.

(** The clock may move on as long as no pending timer is overdue. *)
Lemma waiting_set_now (pg : page) (c : config) (st : state) (t : nat) :
  waiting pg c st ->
  Forall (fun tm => t <= tm_due tm) (timers st) ->
  waiting pg c (set_now t st).
Proof.
  intros [Hp Hc Hd Hl Hg Ht Hn [qs [Hq Hall]] Hi] Hdue.
  rewrite Hq in Hdue. inversion Hdue as [|x l Hx Hqs]; subst x l.
  constructor; simpl; auto.
  exists qs. split; [exact Hq|].
  rewrite Forall_forall in *. intros tm Hin.
  destruct (Hall tm Hin) as (A & B & C & D).
  unfold quiet_timer; simpl.
  split; [exact A|]. split; [exact B|]. split; [exact C|]. apply Hqs; exact Hin.
Qed.

(** ** Listeners *)

Section Emit.

Variable P : Type.

Lemma emit_foreign (name : event_name) (payload : P)
      (fl : list (event_name * nat)) (st : state) :
  fold_left
    (fun s r => if event_name_eqb (fst r) name
                then call_listener (snd r) payload s else s)
    (map (fun r => (fst r, L_foreign (snd r))) fl) st = st.
Proof.
  revert st; induction fl as [|r fl IH]; intros st; simpl; [reflexivity|].
  destruct (event_name_eqb (fst r) name); simpl; apply IH.
Qed.

Lemma emit_attached (pg : page) (name : event_name) (payload : P) (st : state) :
  listeners st = foreign_listeners pg ++ own_listeners ->
  emit name payload st = handler name st.
Proof.
  intros H. unfold emit. rewrite H, fold_left_app.
  unfold foreign_listeners. rewrite emit_foreign.
  destruct name; reflexivity.
Qed.

Lemma emit_detached (pg : page) (name : event_name) (payload : P) (st : state) :
  listeners st = foreign_listeners pg ->
  emit name payload st = st.
Proof.
  intros H. unfold emit. rewrite H. apply emit_foreign.
Qed.

End Emit.

Lemma removeListeners_own (pg : page) (st : state) :
  listeners st = foreign_listeners pg ++ own_listeners ->
  listeners (run_deferred D_removeListeners st) = foreign_listeners pg.
Proof.
  intros H. unfold run_deferred, removeListener; simpl. rewrite H.
  unfold own_listeners.
  rewrite rev_app_distr; simpl.
  rewrite rev_involutive, rev_app_distr; simpl.
  rewrite rev_involutive, rev_app_distr; simpl.
  rewrite rev_involutive. reflexivity.
Qed.

(** ** A timer expires *)

Lemma fire_settled (tm : timer) (st : state) : settled (fire tm st) = true.
Proof.
  unfold fire, run_callback, settle, settled.
  destruct (tm_cb tm);
    match goal with
    | |- context [promise (cleanup ?s)] => destruct (promise (cleanup s)) eqn:E
    end; simpl; try rewrite E; reflexivity.
Qed.

(** The first timer that expires settles the promise with its own callback,
    at its due time, after the three deferred closures have run: listeners
    off, then the timer [timeoutId] names, then the deadline timer. *)
Lemma fire_waiting (pg : page) (c : config) (st : state) (tm : timer) :
  waiting pg c st ->
  promise (fire tm st) =
    Some (settlement_of (tm_cb tm), Nat.max (now st) (tm_due tm)) /\
  listeners (fire tm st) = foreign_listeners pg /\
  timers (fire tm st) =
    filter (fun x => negb (tm_id x =? 0))
      (filter (fun x => negb (tm_id x =? timeoutId st))
         (filter (fun x => negb (tm_id x =? tm_id tm)) (timers st))) /\
  inFlight (fire tm st) = inFlight st /\
  timeoutId (fire tm st) = timeoutId st /\
  globalTimeoutId (fire tm st) = globalTimeoutId st /\
  cfg (fire tm st) = cfg st.
Proof.
  intros [Hp Hc Hd Hl Hg Ht Hn _ Hi].
  unfold fire, run_callback, cleanup; simpl. rewrite Hd; simpl.
  destruct (tm_cb tm); unfold settle; simpl; rewrite Hp; simpl; rewrite Hg, Hl;
    unfold own_listeners;
    rewrite rev_app_distr; simpl;
    rewrite rev_involutive, rev_app_distr; simpl;
    rewrite rev_involutive, rev_app_distr; simpl;
    rewrite rev_involutive; repeat split; reflexivity.
Qed.

(** ** The loop *)

Lemma timers_phase_settled (fuel : nat) (limit : option nat) (st : state) :
  settled st = true -> timers_phase fuel limit st = st.
Proof.
  intros H. destruct fuel; simpl; [reflexivity|]. now rewrite H.
Qed.

(** Every callback settles the promise, so a timer phase runs one timer at
    most. *)
Lemma run_timers_unsettled (limit : option nat) (st : state) :
  settled st = false ->
  run_timers limit st =
  match next_timer (timers st) with
  | Some tm => if due_by limit tm then fire tm st else st
  | None => st
  end.
Proof.
  intros H. unfold run_timers.
  destruct (timers st) as [|a l] eqn:E; [reflexivity|].
  cbn [List.length timers_phase]. rewrite H, E.
  destruct (next_timer (a :: l)) as [tm|]; [|reflexivity].
  destruct (due_by limit tm); [|reflexivity].
  apply timers_phase_settled, fire_settled.
Qed.

Lemma waiting_unsettled (pg : page) (c : config) (st : state) :
  waiting pg c st -> settled st = false.
Proof. intros W. unfold settled. now rewrite (w_promise W). Qed.

Lemma waiting_next_timer (pg : page) (c : config) (st : state) :
  waiting pg c st -> exists tm, next_timer (timers st) = Some tm.
Proof.
  intros W. destruct (w_timers W) as [qs [Hq _]].
  destruct (next_timer (timers st)) as [tm|] eqn:E; [now exists tm|].
  apply next_timer_none in E. rewrite Hq in E. discriminate.
Qed.

Section Deliver.

Variable P : Type.

Lemma deliver_settled (e : event P) (st : state) :
  settled st = true -> deliver e st = st.
Proof. intros H. unfold deliver. now rewrite H. Qed.

Lemma deliver_all_settled (tr : list (event P)) (st : state) :
  settled st = true -> deliver_all tr st = st.
Proof.
  revert st; induction tr as [|e tr IH]; intros st H; simpl; [reflexivity|].
  rewrite deliver_settled by exact H. apply IH, H.
Qed.

Lemma beats_mono (e : event P) (d d' : nat) :
  d <= d' -> beats e d = true -> beats e d' = true.
Proof.
  unfold beats. intros Hle. destruct (ev_early e); intros H.
  - apply Nat.leb_le in H. apply Nat.leb_le. lia.
  - apply Nat.ltb_lt in H. apply Nat.ltb_lt. lia.
Qed.

Lemma beats_le (e : event P) (d : nat) : beats e d = true -> ev_time e <= d.
Proof.
  unfold beats. destruct (ev_early e); intros H.
  - now apply Nat.leb_le in H.
  - apply Nat.ltb_lt in H. lia.
Qed.

Lemma beats_lt (e : event P) (d : nat) : ev_time e < d -> beats e d = true.
Proof.
  unfold beats. intros H. destruct (ev_early e).
  - apply Nat.leb_le. lia.
  - now apply Nat.ltb_lt.
Qed.

Lemma not_beats_ge (e : event P) (d : nat) : beats e d = false -> d <= ev_time e.
Proof.
  unfold beats. destruct (ev_early e); intros H.
  - apply Nat.leb_gt in H. lia.
  - now apply Nat.ltb_ge in H.
Qed.

(** The timers ahead of an event: the next one, unless the event is served
    before it. *)
Lemma timers_before_unsettled (e : event P) (st : state) :
  settled st = false ->
  timers_before e st =
  match next_timer (timers st) with
  | Some tm => if beats e (tm_due tm) then st else fire tm st
  | None => st
  end.
Proof.
  intros U. unfold timers_before, beats.
  destruct (ev_early e).
  - destruct (ev_time e) as [|t].
    + destruct (next_timer (timers st)); reflexivity.
    + rewrite run_timers_unsettled by exact U.
      destruct (next_timer (timers st)) as [tm|]; [|reflexivity].
      unfold due_by.
      destruct (tm_due tm <=? t) eqn:A; destruct (S t <=? tm_due tm) eqn:B;
        try reflexivity.
      * apply Nat.leb_le in A, B. lia.
      * apply Nat.leb_gt in A, B. lia.
  - rewrite run_timers_unsettled by exact U.
    destruct (next_timer (timers st)) as [tm|]; [|reflexivity].
    unfold due_by.
    destruct (tm_due tm <=? ev_time e) eqn:A; destruct (ev_time e <? tm_due tm) eqn:B;
      try reflexivity.
    + apply Nat.leb_le in A. apply Nat.ltb_lt in B. lia.
    + apply Nat.leb_gt in A. apply Nat.ltb_ge in B. lia.
Qed.

(** One event, seen from a waiting state: either a timer was ahead of it and
    has settled the promise, or the clock moves to the event and its handler
    runs. *)
Lemma deliver_waiting (pg : page) (c : config) (e : event P) (st : state) :
  waiting pg c st ->
  (exists tm, next_timer (timers st) = Some tm /\
              beats e (tm_due tm) = false /\
              deliver e st = fire tm st) \/
  (Forall (fun tm => beats e (tm_due tm) = true) (timers st) /\
   waiting pg c (set_now (Nat.max (now st) (ev_time e)) st) /\
   deliver e st =
     handler (ev_name e) (set_now (Nat.max (now st) (ev_time e)) st)).
Proof.
  intros W. pose proof (waiting_unsettled W) as U.
  destruct (waiting_next_timer W) as [tm Htm].
  unfold deliver. rewrite U, (@timers_before_unsettled e st U), Htm.
  destruct (beats e (tm_due tm)) eqn:D.
  - right. rewrite U.
    destruct (@next_timer_some _ _ Htm) as [_ Hall].
    assert (Hb : Forall (fun x => beats e (tm_due x) = true) (timers st)).
    { eapply Forall_impl; [|exact Hall]. simpl. intros x Hx.
      eapply beats_mono; [exact Hx|exact D]. }
    split; [exact Hb|].
    assert (W' : waiting pg c (set_now (Nat.max (now st) (ev_time e)) st)).
    { apply waiting_set_now; [exact W|].
      destruct (w_timers W) as [qs [Hq Hqs]].
      pose proof (w_now W) as Hn. rewrite Hq in *.
      inversion Hb as [|x l Hx Hl]; subst x l. apply beats_le in Hx.
      constructor; [simpl in *; lia|].
      rewrite Forall_forall in *. intros y Hy.
      specialize (Hl y Hy). apply beats_le in Hl.
      destruct (Hqs y Hy) as (_ & _ & _ & Hnow). lia. }
    split; [exact W'|].
    apply emit_attached with (pg := pg). simpl. exact (w_listeners W).
  - left. exists tm. rewrite fire_settled. auto.
Qed.

Lemma waiting_handler (pg : page) (c : config) (name : event_name) (st : state) :
  waiting pg c st -> waiting pg c (handler name st).
Proof.
  intros W. destruct name; simpl;
    [apply waiting_onRequest|apply waiting_onResponse|apply waiting_onResponse];
    exact W.
Qed.

(** When the events are used up the timer that is due first runs. *)
Lemma drain_waiting (pg : page) (c : config) (st : state) :
  waiting pg c st ->
  exists tm, next_timer (timers st) = Some tm /\ run_timers None st = fire tm st.
Proof.
  intros W. destruct (waiting_next_timer W) as [tm Htm].
  exists tm. split; [exact Htm|].
  rewrite (@run_timers_unsettled _ _ (waiting_unsettled W)), Htm. reflexivity.
Qed.

End Deliver.

(** ** Invariants along a run *)

Section Invariant.

Variables (P : Type) (pg : page) (c : config).

(** [I tr st]: a property of the waiting state [st] that may depend on the
    events [tr] still to come. *)
Variable I : list (event P) -> state -> Prop.

(** [I] is kept by an event that is delivered, that is, one that is served
    before every pending timer. *)
Hypothesis I_step : forall e tr st,
  waiting pg c st -> I (e :: tr) st ->
  Forall (fun tm => beats e (tm_due tm) = true) (timers st) ->
  I tr (handler (ev_name e) (set_now (Nat.max (now st) (ev_time e)) st)).

(** After any number of events the call is still waiting, or a timer that
    was due before some event has settled it. *)
Lemma deliver_all_inv (tr : list (event P)) (st : state) :
  waiting pg c st -> I tr st ->
  (waiting pg c (deliver_all tr st) /\ I [] (deliver_all tr st)) \/
  (exists st0 e tr0 tm,
      waiting pg c st0 /\ I (e :: tr0) st0 /\
      next_timer (timers st0) = Some tm /\ beats e (tm_due tm) = false /\
      deliver_all tr st = fire tm st0).
Proof.
  revert st; induction tr as [|e tr IH]; intros st W HI.
  - left. auto.
  - change (deliver_all (e :: tr) st) with (deliver_all tr (deliver e st)).
    destruct (deliver_waiting e W) as [(tm & Htm & Hdue & Hd)|(Hnd & W' & Hd)].
    + right. exists st, e, tr, tm.
      split; [exact W|]. split; [exact HI|]. split; [exact Htm|].
      split; [exact Hdue|].
      rewrite Hd. apply deliver_all_settled, fire_settled.
    + rewrite Hd. apply IH.
      * apply waiting_handler, W'.
      * apply I_step; assumption.
Qed.

(** The call always ends with one timer expiring in a waiting state:
    before the event at the head of what is left of the trace, or after
    the last event. *)
Lemma run_inv (tr : list (event P)) (st : state) :
  waiting pg c st -> I tr st ->
  exists st0 tr0 tm,
    waiting pg c st0 /\ I tr0 st0 /\
    next_timer (timers st0) = Some tm /\
    match tr0 with [] => True | e :: _ => beats e (tm_due tm) = false end /\
    run_timers None (deliver_all tr st) = fire tm st0.
Proof.
  intros W HI.
  destruct (@deliver_all_inv tr st W HI) as [[W' HI']|(st0 & e & tr0 & tm & A & B & C & D & E)].
  - destruct (drain_waiting W') as (tm & Htm & Hrun).
    exists (deliver_all tr st), [], tm. auto.
  - exists st0, (e :: tr0), tm.
    split; [exact A|]. split; [exact B|]. split; [exact C|].
    split; [exact D|].
    rewrite E. unfold run_timers.
    apply timers_phase_settled, fire_settled.
Qed.

End Invariant.

(** ** Defaults *)

(** C7.  An option that is left out takes its default, whatever the other
    two are: 500 ms for the quiet period, 0 for the number of requests
    tolerated in flight, the page's default navigation timeout for the
    deadline.  The two timers of the call are armed with these values, the
    deadline timer with the delay as the runtime takes it. *)
Theorem options_default (pg : page) (t g : option nat) (r : option Z) :
  timeout (resolve_options pg (mkOptions None r g)) = 500 /\
  requests (resolve_options pg (mkOptions t None g)) = 0%Z /\
  globalTimeout (resolve_options pg (mkOptions t r None)) = _defaultNavigationTimeout pg /\
  cfg (waitForNetworkIdle pg no_options) = mkConfig 500 0 (_defaultNavigationTimeout pg) /\
  timers (waitForNetworkIdle pg no_options) =
    [mkTimer 0 0 (timer_delay (_defaultNavigationTimeout pg))
             (cleanupAndReject timeout_message);
     mkTimer 1 0 500 cleanupAndResolve].
Proof. repeat split; reflexivity. Qed.

(** ** No events *)

(** With no page event the first quiet timer settles the call when its
    delay, as the runtime takes it, is shorter than that of the deadline
    timer. *)
Lemma no_events_outcome (P : Type) (pg : page) (o : options) :
  timer_delay (timeout (resolve_options pg o)) <
  timer_delay (globalTimeout (resolve_options pg o)) ->
  promise (run pg o (@nil (event P))) =
    Some (Resolved, timer_delay (timeout (resolve_options pg o))).
Proof.
  intros Hlt. unfold run. simpl deliver_all.
  pose proof (waiting_init pg o) as W.
  rewrite (@run_timers_unsettled _ _ (waiting_unsettled W)).
  change (timers (waitForNetworkIdle pg o)) with
    [deadline_timer (resolve_options pg o); first_quiet_timer (resolve_options pg o)].
  rewrite next_timer_second; [|exact Hlt|constructor].
  cbn [due_by].
  destruct (fire_waiting (first_quiet_timer (resolve_options pg o)) W) as (Hp & _).
  rewrite Hp. reflexivity.
Qed.

(** The same with the three options spelled out. *)
Lemma no_events_outcome_at (P : Type) (pg : page) (t g : nat) (r : Z) :
  timer_delay t < timer_delay g ->
  promise (run pg (mkOptions (Some t) (Some r) (Some g)) (@nil (event P))) =
    Some (Resolved, timer_delay t).
Proof. exact (@no_events_outcome P pg (mkOptions (Some t) (Some r) (Some g))). Qed.

(** C8, for delays the runtime takes as they are.  When the page emits
    nothing, the quiet period is at least 1 ms and shorter than the
    deadline, and the deadline is at most 2^31 - 1 ms, the quiet timer armed
    by the executor expires first and the call resolves at the end of the
    quiet period. *)
Theorem no_events_resolves (P : Type) (pg : page) (o : options) :
  1 <= timeout (resolve_options pg o) ->
  timeout (resolve_options pg o) < globalTimeout (resolve_options pg o) ->
  (N.of_nat (globalTimeout (resolve_options pg o)) <= TIMEOUT_MAX)%N ->
  promise (run pg o (@nil (event P))) =
    Some (Resolved, timeout (resolve_options pg o)).
Proof.
  intros H1 Hlt Hmax.
  assert (Ht : timer_delay (timeout (resolve_options pg o)) =
               timeout (resolve_options pg o)).
  { apply timer_delay_in_range; [exact H1|lia]. }
  assert (Hg : timer_delay (globalTimeout (resolve_options pg o)) =
               globalTimeout (resolve_options pg o)).
  { apply timer_delay_in_range; [lia|exact Hmax]. }
  rewrite <- Ht. apply no_events_outcome. rewrite Ht, Hg. exact Hlt.
Qed.

Lemma no_events_resolves_witness :
  promise (run (mkPage 3000 []) no_options (@nil (event unit))) =
    Some (Resolved, 500).
Proof.
  apply (@no_events_resolves unit (mkPage 3000 []) no_options).
  - apply Nat.leb_le. vm_compute. reflexivity.
  - apply Nat.ltb_lt. vm_compute. reflexivity.
  - vm_compute. discriminate.
Defined.

(** C8 as it is worded holds of every quiet period below the deadline.  A
    quiet period of 0 ms with a deadline of 1 ms: the runtime arms both
    timers with 1 ms, the deadline timer first, and with no event at all the
    call rejects at 1. *)
Lemma zero_delay_counterexample :
  0 < 1 /\
  promise (run scenario_page (mkOptions (Some 0) (Some 0%Z) (Some 1)) (@nil (event unit))) =
    Some (Rejected timeout_message, 1) /\
  outcome (run scenario_page (mkOptions (Some 0) (Some 0%Z) (Some 1)) (@nil (event unit))) <>
    Some Resolved.
Proof.
  split; [lia|]. split; [vm_compute; reflexivity|vm_compute; discriminate].
Qed.

(** ** The scenario of the specification *)

(** C5.  Threshold 0, quiet period 500, deadline 3000; a request starts at
    0 and finishes at 100.  After the two events the only quiet timer
    pending is a fresh one, armed at 100 and due at 600, and the call
    resolves at 600. *)
Theorem scenario_resolves_at_600 :
  timers (deliver_all scenario_trace (waitForNetworkIdle scenario_page scenario_options)) =
    [mkTimer 0 0 3000 (cleanupAndReject timeout_message);
     mkTimer 2 100 600 cleanupAndResolve] /\
  timers (deliver_all [mkEvent 0 request tt] (waitForNetworkIdle scenario_page scenario_options)) =
    [mkTimer 0 0 3000 (cleanupAndReject timeout_message)] /\
  promise (run scenario_page scenario_options scenario_trace) = Some (Resolved, 600).
Proof. vm_compute. repeat split; reflexivity. Qed.

(** ** A deadline no later than the quiet period *)

(** When the delay of the deadline timer, as the runtime takes it, is not
    longer than that of the quiet timers, the deadline timer, armed first,
    is due no later than any quiet timer of the call: whatever the page
    emits, the call rejects when the deadline timer is due. *)
Lemma deadline_first (P : Type) (pg : page) (o : options) (tr : list (event P)) :
  timer_delay (globalTimeout (resolve_options pg o)) <=
  timer_delay (timeout (resolve_options pg o)) ->
  promise (run pg o tr) =
    Some (Rejected timeout_message, timer_delay (globalTimeout (resolve_options pg o))).
Proof.
  intros Hle. pose proof (waiting_init pg o) as W0.
  remember (resolve_options pg o) as c eqn:Ec.
  destruct (@run_inv P pg c (fun _ _ => True) (fun _ _ _ _ _ _ => Logic.I)
                     tr _ W0 Logic.I)
    as (st0 & tr0 & tm & W & _ & Htm & _ & Hrun).
  unfold run. rewrite Hrun.
  destruct (w_timers W) as [qs [Hq Hqs]].
  assert (tm = deadline_timer c) as ->.
  { rewrite Hq, next_timer_head in Htm; [now inversion Htm|].
    eapply Forall_impl; [|exact Hqs].
    intros x (_ & _ & Hdue & _). rewrite (w_cfg W) in Hdue. simpl. lia. }
  destruct (fire_waiting (deadline_timer c) W) as (Hp & _).
  rewrite Hp. simpl. pose proof (w_now W).
  now rewrite Nat.max_r by assumption.
Qed.

(** C9, for a quiet period the runtime takes as it is.  When the deadline
    is not later than the quiet period and the quiet period is at most
    2^31 - 1 ms, the call never resolves: whatever the page emits, it
    rejects with the time-out error when the deadline timer is due, that is
    at the deadline, or at 1 ms for a deadline of 0. *)
Theorem short_deadline_always_rejects (P : Type) (pg : page) (o : options)
        (tr : list (event P)) :
  globalTimeout (resolve_options pg o) <= timeout (resolve_options pg o) ->
  (N.of_nat (timeout (resolve_options pg o)) <= TIMEOUT_MAX)%N ->
  promise (run pg o tr) =
    Some (Rejected timeout_message, Nat.max 1 (globalTimeout (resolve_options pg o))).
Proof.
  intros Hle Hmax.
  assert (Hg : timer_delay (globalTimeout (resolve_options pg o)) =
               Nat.max 1 (globalTimeout (resolve_options pg o))).
  { destruct (globalTimeout (resolve_options pg o)) as [|g] eqn:E; [reflexivity|].
    rewrite timer_delay_in_range; lia. }
  rewrite <- Hg. apply deadline_first. rewrite Hg.
  pose proof (timer_delay_pos (timeout (resolve_options pg o))) as Hpos.
  destruct (timeout (resolve_options pg o)) as [|t] eqn:E.
  - assert (globalTimeout (resolve_options pg o) = 0) as -> by lia. exact Hpos.
  - rewrite timer_delay_in_range; lia.
Qed.

Lemma short_deadline_always_rejects_witness :
  promise (run scenario_page (mkOptions (Some 500) (Some 1%Z) (Some 500))
               [mkEvent 10 request tt; mkEvent 20 requestfinished tt]) =
    Some (Rejected timeout_message, 500).
Proof.
  apply (@short_deadline_always_rejects unit scenario_page
           (mkOptions (Some 500) (Some 1%Z) (Some 500))).
  - apply Nat.leb_le. vm_compute. reflexivity.
  - vm_compute. discriminate.
Defined.

(** C9 as it is worded holds of every quiet period.  A deadline of 3000 ms
    and a quiet period of 2^31 ms, which is more than a timer of the runtime
    takes: the quiet timer is armed with 1 ms, and with no event at all the
    call resolves at 1. *)
Lemma long_quiet_period_counterexample :
  3000 <= 2 ^ 31 /\
  promise (run scenario_page (mkOptions (Some (2 ^ 31)) (Some 0%Z) (Some 3000))
               (@nil (event unit))) = Some (Resolved, 1).
Proof.
  assert (Hbig : (TIMEOUT_MAX < N.of_nat (2 ^ 31))%N).
  { rewrite Nat2N.inj_pow. vm_compute. reflexivity. }
  pose proof (@timer_delay_above _ Hbig) as E.
  split.
  - apply N.lt_le_incl in Hbig.
    assert (H : (N.of_nat 3000 <= N.of_nat (2 ^ 31))%N).
    { eapply N.le_trans; [|exact Hbig]. vm_compute. discriminate. }
    lia.
  - refine (eq_trans (@no_events_outcome_at unit scenario_page (2 ^ 31) 3000 0%Z _)
                     (f_equal (fun x => Some (Resolved, x)) E)).
    refine (eq_ind_r (fun x => x < timer_delay 3000) _ E).
    apply Nat.ltb_lt. vm_compute. reflexivity.
Qed.

(** ** Payloads *)

Section Payload.

Variables P Q : Type.

Lemma emit_payload (name : event_name) (p : P) (q : Q) (st : state) :
  emit name p st = emit name q st.
Proof.
  unfold emit. generalize (listeners st) as l. intros l; revert st.
  induction l as [|r l IH]; intros st; simpl; [reflexivity|].
  destruct (event_name_eqb (fst r) name); [|apply IH].
  destruct (snd r); simpl; apply IH.
Qed.

Lemma deliver_payload (e : event P) (f : event Q) (st : state) :
  erase e = erase f -> deliver e st = deliver f st.
Proof.
  destruct e as [t n p b], f as [t' n' q b']. unfold erase; simpl.
  intros H; inversion H; subst. unfold deliver, timers_before; simpl.
  destruct (settled st); [reflexivity|].
  match goal with
  | |- (if settled ?x then _ else _) = _ => destruct (settled x)
  end; [reflexivity|].
  apply emit_payload.
Qed.

(** C10.  Two runs with the same configuration whose events agree in
    time, in their order with the timers of their millisecond, and in kind,
    one after the other, end in the same state, and so with the same
    outcome, whatever the events carry. *)
Theorem outcome_ignores_payload (pg : page) (o : options)
        (tr : list (event P)) (tr' : list (event Q)) :
  map erase tr = map erase tr' ->
  run pg o tr = run pg o tr' /\
  outcome (run pg o tr) = outcome (run pg o tr').
Proof.
  intros H.
  assert (E : run pg o tr = run pg o tr'); [|now rewrite E].
  unfold run. f_equal.
  generalize (waitForNetworkIdle pg o) as st.
  revert tr' H; induction tr as [|e tr IH]; intros [|f tr'] H st;
    try discriminate; [reflexivity|].
  simpl in H. inversion H as [[H1 H2 H3 H4]].
  change (deliver_all tr (deliver e st) = deliver_all tr' (deliver f st)).
  rewrite (@deliver_payload e f st) by (unfold erase; congruence).
  apply IH. exact H4.
Qed.

End Payload.

Lemma outcome_ignores_payload_witness :
  run scenario_page scenario_options scenario_trace =
  run scenario_page scenario_options
      [mkEvent 0 request "GET /login"%string; mkEvent 100 requestfinished "200 OK"%string] /\
  outcome (run scenario_page scenario_options scenario_trace) =
  outcome (run scenario_page scenario_options
      [mkEvent 0 request "GET /login"%string; mkEvent 100 requestfinished "200 OK"%string]).
Proof.
  apply (@outcome_ignores_payload unit string scenario_page scenario_options).
  reflexivity.
Defined.

(** ** The counter *)

Lemma inFlight_handler (name : event_name) (st : state) :
  inFlight (handler name st) = count_step (inFlight st) name.
Proof.
  assert (R : inFlight (onResponse st) =
              (if (inFlight st =? 0)%Z then 0%Z else (inFlight st - 1)%Z)).
  { unfold onResponse.
    destruct (inFlight st =? 0)%Z eqn:E; [now apply Z.eqb_eq in E|].
    simpl. now destruct (inFlight st - 1 <=? requests (cfg st))%Z. }
  destruct name; simpl; try exact R.
  unfold onRequest; simpl.
  now destruct (requests (cfg st) <? inFlight st + 1)%Z.
Qed.

Lemma onResponse_at_zero (st : state) :
  inFlight st = 0%Z -> onResponse st = st.
Proof. intros H. unfold onResponse. now rewrite H. Qed.

(** C6.  A finished or failed event that finds the counter at 0 leaves the
    whole state as it is: the counter, the pending timers, the handle in
    [timeoutId].  This holds of the handler and of the emission of such an
    event in any state the call reaches; and in all these states, as at the
    end of the call, the counter is not negative. *)
Theorem response_at_zero_is_ignored (P : Type) (pg : page) (o : options)
        (tr : list (event P)) (name : event_name) (payload : P) :
  (forall st, inFlight st = 0%Z -> onResponse st = st) /\
  (0 <= inFlight (deliver_all tr (waitForNetworkIdle pg o)))%Z /\
  (0 <= inFlight (run pg o tr))%Z /\
  (name <> request ->
   inFlight (deliver_all tr (waitForNetworkIdle pg o)) = 0%Z ->
   emit name payload (deliver_all tr (waitForNetworkIdle pg o)) =
   deliver_all tr (waitForNetworkIdle pg o)).
Proof.
  split; [exact onResponse_at_zero|].
  pose proof (waiting_init pg o) as W0.
  set (c := resolve_options pg o) in *.
  split; [|split].
  - destruct (@deliver_all_inv P pg c (fun _ _ => True) (fun _ _ _ _ _ _ => Logic.I)
                               tr _ W0 Logic.I)
      as [[W _]|(st0 & e & tr0 & tm & W & _ & _ & _ & E)].
    + exact (w_inFlight W).
    + rewrite E. destruct (fire_waiting tm W) as (_ & _ & _ & Hi & _).
      rewrite Hi. exact (w_inFlight W).
  - destruct (@run_inv P pg c (fun _ _ => True) (fun _ _ _ _ _ _ => Logic.I)
                       tr _ W0 Logic.I)
      as (st0 & tr0 & tm & W & _ & _ & _ & E).
    unfold run. rewrite E. destruct (fire_waiting tm W) as (_ & _ & _ & Hi & _).
    rewrite Hi. exact (w_inFlight W).
  - intros Hname Hzero.
    destruct (@deliver_all_inv P pg c (fun _ _ => True) (fun _ _ _ _ _ _ => Logic.I)
                               tr _ W0 Logic.I)
      as [[W _]|(st0 & e & tr0 & tm & W & _ & _ & _ & E)].
    + rewrite (emit_attached pg name payload _ (w_listeners W)).
      destruct name; [congruence| |]; simpl; apply onResponse_at_zero, Hzero.
    + rewrite E. destruct (fire_waiting tm W) as (_ & Hl & _).
      apply emit_detached with (pg := pg). exact Hl.
Qed.

Lemma response_at_zero_is_ignored_witness :
  emit requestfinished tt (deliver_all scenario_trace
                             (waitForNetworkIdle scenario_page scenario_options)) =
  deliver_all scenario_trace (waitForNetworkIdle scenario_page scenario_options).
Proof.
  apply (@response_at_zero_is_ignored unit scenario_page scenario_options
           scenario_trace requestfinished tt).
  - discriminate.
  - vm_compute. reflexivity.
Defined.

(** ** The counter along a trace *)

Section Counter.

Variables (P : Type) (pg : page) (c : config).

Lemma counter_follows_trace (tr : list (event P)) (st : state) :
  waiting pg c st ->
  promise (deliver_all tr st) = None ->
  inFlight (deliver_all tr st) = fold_left count_step (map (@ev_name P) tr) (inFlight st).
Proof.
  revert st; induction tr as [|e tr IH]; intros st W Hp; [reflexivity|].
  change (deliver_all (e :: tr) st) with (deliver_all tr (deliver e st)) in *.
  destruct (deliver_waiting e W) as [(tm & _ & _ & Hd)|(_ & W' & Hd)].
  - exfalso. rewrite Hd, deliver_all_settled in Hp by apply fire_settled.
    pose proof (fire_settled tm st) as F. unfold settled in F.
    rewrite Hp in F. discriminate.
  - rewrite Hd in *. rewrite IH; [|apply waiting_handler, W'|exact Hp].
    rewrite inFlight_handler. reflexivity.
Qed.

Lemma failed_as_finished (tr : list (event P)) (st : state) :
  waiting pg c st \/ settled st = true ->
  deliver_all (map (@as_finished P) tr) st = deliver_all tr st.
Proof.
  revert st; induction tr as [|e tr IH]; intros st H; [reflexivity|].
  change (deliver_all (map (@as_finished P) tr) (deliver (as_finished e) st) =
          deliver_all tr (deliver e st)).
  assert (E : deliver (as_finished e) st = deliver e st).
  { destruct H as [W|S]; [|now rewrite !deliver_settled].
    unfold as_finished. destruct (ev_name e) eqn:En; try reflexivity.
    destruct (deliver_waiting e W) as [(tm & Htm & Hdue & Hd)|(Hnd & _ & Hd)];
      destruct (deliver_waiting
                  (mkEventAt (ev_time e) requestfinished (ev_payload e) (ev_early e)) W)
        as [(tm' & Htm' & Hdue' & Hd')|(Hnd' & _ & Hd')];
      change (beats (mkEventAt (ev_time e) requestfinished (ev_payload e) (ev_early e)))
        with (beats e) in *; simpl in Hd'.
    - rewrite Hd, Hd'. congruence.
    - apply next_timer_some in Htm. destruct Htm as [Hin _].
      rewrite Forall_forall in Hnd'. specialize (Hnd' tm Hin). congruence.
    - apply next_timer_some in Htm'. destruct Htm' as [Hin _].
      rewrite Forall_forall in Hnd. specialize (Hnd tm' Hin). congruence.
    - rewrite Hd, Hd', En. reflexivity. }
  rewrite E. apply IH.
  destruct H as [W|S]; [|right; now rewrite deliver_settled].
  destruct (deliver_waiting e W) as [(tm & _ & _ & Hd)|(_ & W' & Hd)]; rewrite Hd.
  - right. apply fire_settled.
  - left. apply waiting_handler, W'.
Qed.

End Counter.

(** ** Traces that stay at or below the threshold *)

Lemma onRequest_calm (st : state) :
  (inFlight st + 1 <= requests (cfg st))%Z ->
  timers (onRequest st) = timers st.
Proof.
  intros H. unfold onRequest; simpl.
  destruct (requests (cfg st) <? inFlight st + 1)%Z eqn:E; [|reflexivity].
  apply Z.ltb_lt in E. lia.
Qed.

Lemma onResponse_timers (st : state) :
  exists l, timers (onResponse st) = timers st ++ l.
Proof.
  unfold onResponse.
  destruct (inFlight st =? 0)%Z; [exists []; now rewrite app_nil_r|].
  simpl. destruct (inFlight st - 1 <=? requests (cfg st))%Z; simpl.
  - eexists; reflexivity.
  - exists []; now rewrite app_nil_r.
Qed.

Section Calm.

Variables (P : Type) (pg : page) (c : config).

Lemma calm_step (e : event P) (tr : list (event P)) (st : state) :
  waiting pg c st -> calm c (e :: tr) st ->
  Forall (fun tm => beats e (tm_due tm) = true) (timers st) ->
  calm c tr (handler (ev_name e) (set_now (Nat.max (now st) (ev_time e)) st)).
Proof.
  intros W [[qs Hq] Hall] _.
  simpl in Hall. inversion Hall as [|x l Hx Hl]; subst x l.
  split.
  - destruct (ev_name e) eqn:En; simpl.
    + rewrite onRequest_calm; simpl; [now exists qs|].
      rewrite (w_cfg W). exact Hx.
    + destruct (onResponse_timers (set_now (Nat.max (now st) (ev_time e)) st)) as [l Hl'].
      rewrite Hl'; simpl. rewrite Hq. now exists (qs ++ l).
    + destruct (onResponse_timers (set_now (Nat.max (now st) (ev_time e)) st)) as [l Hl'].
      rewrite Hl'; simpl. rewrite Hq. now exists (qs ++ l).
  - rewrite inFlight_handler. simpl. exact Hl.
Qed.

Lemma calm_run (tr : list (event P)) (st : state) :
  waiting pg c st -> calm c tr st ->
  timer_delay (timeout c) < timer_delay (globalTimeout c) ->
  promise (run_timers None (deliver_all tr st)) =
    Some (Resolved, timer_delay (timeout c)).
Proof.
  intros W HI Hlt.
  destruct (@run_inv P pg c (@calm P c) calm_step tr st W HI)
    as (st0 & tr0 & tm & W' & [[qs Hq] _] & Htm & _ & Hrun).
  rewrite Hrun.
  destruct (w_timers W') as [qs0 [Hq0 Hqs0]].
  rewrite Hq in Hq0. inversion Hq0; subst qs0.
  inversion Hqs0 as [|x l Hx Hl]; subst x l.
  assert (tm = first_quiet_timer c) as ->.
  { rewrite Hq, next_timer_second in Htm; [now inversion Htm|exact Hlt|].
    eapply Forall_impl; [|exact Hl].
    intros x (_ & _ & Hdue & _). rewrite (w_cfg W') in Hdue. simpl. lia. }
  destruct (fire_waiting (first_quiet_timer c) W') as (Hp & _).
  rewrite Hp. simpl.
  destruct Hx as (_ & _ & _ & Hnow). simpl in Hnow.
  now rewrite Nat.max_r by assumption.
Qed.

End Calm.

(** C2, with the count read as the counter of the code and for delays the
    runtime takes as they are.  The quiet period is at least 1 ms and the
    deadline at most 2^31 - 1 ms.  When the in-flight counter (one up on a
    started request, one down on a finished or failed one unless it is at
    0) never exceeds the threshold, and the quiet period that follows its
    last change ends before the deadline, the call resolves, no later than a
    quiet period after that change; in fact as soon as the quiet period
    armed by the executor is over. *)
Theorem calm_trace_resolves (P : Type) (pg : page) (o : options)
        (tr : list (event P)) :
  1 <= timeout (resolve_options pg o) ->
  (N.of_nat (globalTimeout (resolve_options pg o)) <= TIMEOUT_MAX)%N ->
  Forall (fun n => (n <= requests (resolve_options pg o))%Z)
         (0%Z :: running count_step 0%Z tr) ->
  last_change count_step tr + timeout (resolve_options pg o) <
    globalTimeout (resolve_options pg o) ->
  exists t,
    promise (run pg o tr) = Some (Resolved, t) /\
    t = timeout (resolve_options pg o) /\
    t <= last_change count_step tr + timeout (resolve_options pg o).
Proof.
  intros H1 Hmax Hall Hlt. exists (timeout (resolve_options pg o)).
  split; [|split; [reflexivity|lia]].
  assert (Ht : timer_delay (timeout (resolve_options pg o)) =
               timeout (resolve_options pg o)).
  { apply timer_delay_in_range; [exact H1|lia]. }
  assert (Hg : timer_delay (globalTimeout (resolve_options pg o)) =
               globalTimeout (resolve_options pg o)).
  { apply timer_delay_in_range; [lia|exact Hmax]. }
  rewrite <- Ht.
  unfold run. apply calm_run with (pg := pg).
  - apply waiting_init.
  - split; [now exists []|].
    inversion Hall; assumption.
  - rewrite Ht, Hg. lia.
Qed.

Lemma calm_trace_resolves_witness :
  exists t,
    promise (run scenario_page tolerant_options
                 [mkEvent 10 request tt; mkEvent 490 requestfinished tt;
                  mkEvent 2900 requestfinished tt]) =
      Some (Resolved, t) /\
    t = 500 /\ t <= 490 + 500.
Proof.
  apply (@calm_trace_resolves unit scenario_page tolerant_options
           [mkEvent 10 request tt; mkEvent 490 requestfinished tt;
            mkEvent 2900 requestfinished tt]).
  - apply Nat.leb_le. vm_compute. reflexivity.
  - vm_compute. discriminate.
  - repeat constructor; vm_compute; discriminate.
  - apply Nat.ltb_lt. vm_compute. reflexivity.
Defined.

(** C2 as it is worded counts started events minus finished and failed
    ones, and holds of every quiet period.  With threshold 0, quiet period
    500 and deadline 3000, a request that was already in flight finishes at
    10 and another one starts at 20: the difference is -1, then 0, never
    above the threshold, and nothing happens after 20; but the counter of
    the code is 0, then 1, the quiet timer is cancelled at 20 and the call
    rejects at 3000.  With a quiet period of 0 and a deadline of 1 the
    runtime arms both timers with 1 ms, and with no event at all the call
    rejects at 1. *)
Lemma calm_trace_counterexample :
  (Forall (fun n => (n <= 0)%Z)
          (0%Z :: running raw_step 0%Z
                    [mkEvent 10 requestfinished tt; mkEvent 20 request tt]) /\
   last_change raw_step [mkEvent 10 requestfinished tt; mkEvent 20 request tt] + 500
     < 3000 /\
   promise (run scenario_page scenario_options
                [mkEvent 10 requestfinished tt; mkEvent 20 request tt]) =
     Some (Rejected timeout_message, 3000)) /\
  (Forall (fun n => (n <= 0)%Z) (0%Z :: running count_step 0%Z (@nil (event unit))) /\
   last_change count_step (@nil (event unit)) + 0 < 1 /\
   promise (run scenario_page (mkOptions (Some 0) (Some 0%Z) (Some 1))
                (@nil (event unit))) =
     Some (Rejected timeout_message, 1)).
Proof.
  split; (split; [repeat constructor; vm_compute; discriminate|]);
    (split; [apply Nat.ltb_lt; vm_compute; reflexivity|vm_compute; reflexivity]).
Qed.

(** ** Traces that go above the threshold and stay there *)

Lemma filter_deadline (c : config) (id : nat) :
  0 < id ->
  filter (fun tm => negb (tm_id tm =? id)) [deadline_timer c] = [deadline_timer c].
Proof. intros H. destruct id; [lia|reflexivity]. Qed.

Lemma deliver_all_app (P : Type) (tr tr' : list (event P)) (st : state) :
  deliver_all (tr ++ tr') st = deliver_all tr' (deliver_all tr st).
Proof. unfold deliver_all. apply fold_left_app. Qed.

Section Busy.

Variables (P : Type) (pg : page) (c : config).

Lemma tracking_step (e : event P) (tr : list (event P)) (st : state) :
  waiting pg c st -> tracking c (e :: tr) st ->
  Forall (fun tm => beats e (tm_due tm) = true) (timers st) ->
  tracking c tr (handler (ev_name e) (set_now (Nat.max (now st) (ev_time e)) st)).
Proof.
  intros W [[Hshape Hnone] [Hcross Hrest]] _.
  pose proof (w_cfg W) as Hc. pose proof (w_tid W) as Htid.
  pose proof (w_inFlight W) as Hi.
  split; [|rewrite inFlight_handler; exact Hrest].
  assert (Rq : tracked c (onRequest (set_now (Nat.max (now st) (ev_time e)) st))).
  { unfold onRequest, tracked; simpl. rewrite Hc.
    destruct (requests c <? inFlight st + 1)%Z eqn:E; simpl.
    - assert (Ht : filter (fun tm => negb (tm_id tm =? timeoutId st)) (timers st) =
                   [deadline_timer c]).
      { destruct Hshape as [Ht|(tm & Ht & Hid)]; rewrite Ht.
        - apply filter_deadline. lia.
        - simpl. destruct (timeoutId st) as [|k] eqn:Ek; [lia|]. simpl.
          rewrite Hid. now rewrite Nat.eqb_refl. }
      rewrite Ht. split; [now left|reflexivity].
    - apply Z.ltb_ge in E. split; [exact Hshape|]. intros; lia. }
  assert (Rs : ev_name e <> request ->
               tracked c (onResponse (set_now (Nat.max (now st) (ev_time e)) st))).
  { intros Hname. unfold onResponse, tracked; simpl.
    destruct (inFlight st =? 0)%Z eqn:E0; [split; assumption|].
    apply Z.eqb_neq in E0. simpl. rewrite Hc.
    destruct (inFlight st - 1 <=? requests c)%Z eqn:E; simpl.
    - apply Z.leb_le in E.
      assert (Hab : (requests c < inFlight st)%Z) by (apply Hcross; [exact Hname|lia|exact E]).
      rewrite (Hnone ltac:(lia)). simpl.
      split; [|intros; lia].
      right. eexists. split; reflexivity.
    - apply Z.leb_gt in E. split; [exact Hshape|].
      intros H. apply Hnone. lia. }
  destruct (ev_name e) eqn:En; simpl; [exact Rq|apply Rs; discriminate|apply Rs; discriminate].
Qed.

Lemma busy_from_step (e : event P) (tr : list (event P)) (st : state) :
  waiting pg c st -> busy_from c (e :: tr) st ->
  Forall (fun tm => beats e (tm_due tm) = true) (timers st) ->
  busy_from c tr (handler (ev_name e) (set_now (Nat.max (now st) (ev_time e)) st)).
Proof.
  intros W (Ht & Hgt & Hall) Hnd.
  pose proof (w_cfg W) as Hc. pose proof (w_tid W) as Htid.
  rewrite Ht in Hnd. inversion Hnd as [|x l Hbefore _]; subst x l.
  simpl in Hbefore, Hall. destruct Hall as [Hlate|[Hx Hl]]; [congruence|].
  unfold busy_from. rewrite inFlight_handler.
  split; [|split; [exact Hx|exact Hl]].
  destruct (ev_name e); simpl in *.
  - unfold onRequest; simpl. rewrite Hc.
    destruct (requests c <? inFlight st + 1)%Z; simpl; [|exact Ht].
    rewrite Ht. apply filter_deadline. lia.
  - unfold onResponse; simpl.
    destruct (inFlight st =? 0)%Z; simpl; [exact Ht|].
    rewrite Hc. destruct (inFlight st - 1 <=? requests c)%Z eqn:E; simpl; [|exact Ht].
    apply Z.leb_le in E. lia.
  - unfold onResponse; simpl.
    destruct (inFlight st =? 0)%Z; simpl; [exact Ht|].
    rewrite Hc. destruct (inFlight st - 1 <=? requests c)%Z eqn:E; simpl; [|exact Ht].
    apply Z.leb_le in E. lia.
Qed.

Lemma busy_from_run (tr : list (event P)) (st : state) :
  waiting pg c st -> busy_from c tr st ->
  promise (run_timers None (deliver_all tr st)) =
    Some (Rejected timeout_message, timer_delay (globalTimeout c)) /\
  timers (run_timers None (deliver_all tr st)) = [] /\
  listeners (run_timers None (deliver_all tr st)) = foreign_listeners pg.
Proof.
  intros W HI.
  destruct (@run_inv P pg c (@busy_from P c) busy_from_step tr st W HI)
    as (st0 & tr0 & tm & W' & (Hts & _) & Htm & _ & Hrun).
  rewrite Hrun. pose proof (w_tid W') as Htid.
  rewrite Hts in Htm. simpl in Htm. inversion Htm; subst tm.
  destruct (fire_waiting (deadline_timer c) W') as (Hp & Hl & Ht & _).
  rewrite Hp, Hl, Ht, Hts. pose proof (w_now W') as Hn.
  split; [simpl; now rewrite Nat.max_r by assumption|].
  split; [|reflexivity].
  simpl. destruct (timeoutId st0); [lia|reflexivity].
Qed.

Lemma tracking_then_busy (pre busy : list (event P)) (st : state) :
  waiting pg c st -> tracking c pre st ->
  promise (deliver_all pre st) = None ->
  (Z.max 0 (requests c) <
   fold_left count_step (map (@ev_name P) pre) (inFlight st))%Z ->
  stays_above c (fold_left count_step (map (@ev_name P) pre) (inFlight st)) busy ->
  promise (run_timers None (deliver_all (pre ++ busy) st)) =
    Some (Rejected timeout_message, timer_delay (globalTimeout c)) /\
  timers (run_timers None (deliver_all (pre ++ busy) st)) = [] /\
  listeners (run_timers None (deliver_all (pre ++ busy) st)) = foreign_listeners pg.
Proof.
  intros W HI Hp Hgt Hstay.
  rewrite deliver_all_app.
  pose proof (counter_follows_trace pre W Hp) as Hcount.
  destruct (@deliver_all_inv P pg c (@tracking P c) tracking_step pre st W HI)
    as [[W' [[_ Hnone] _]]|(st0 & e & tr0 & tm & _ & _ & _ & _ & E)].
  - apply busy_from_run; [exact W'|].
    rewrite <- Hcount in Hgt, Hstay.
    split; [apply Hnone; exact Hgt|]. split; [lia|exact Hstay].
  - exfalso. rewrite E in Hp. pose proof (fire_settled tm st0) as F.
    unfold settled in F. rewrite Hp in F. discriminate.
Qed.

End Busy.

(** With the threshold at 0 a finished or failed request always crosses the
    threshold when it brings the counter down to it. *)
Lemma crossings_only_at_zero (P : Type) (c : config) (tr : list (event P)) (n : Z) :
  requests c = 0%Z -> crossings_only c n tr.
Proof.
  intros H0. revert n; induction tr as [|e tr IH]; intros n; simpl; [exact Logic.I|].
  split; [intros; lia|apply IH].
Qed.

(** C3, with the message the code gives.  [pre] are the events up to the
    one that takes the counter above the threshold (and above 0): the call
    has not settled by then, and a finished or failed request among them
    brings the counter to the threshold or below only from above it, as is
    always the case with the threshold at 0.  After every later event that
    is served before the deadline timer the counter is still above the
    threshold.  Then the call rejects when the deadline timer is due, the
    error says "Waiting for network idle timed out", and nothing of the call
    is left behind: no timer pending, only the page's own listeners
    attached. *)
Theorem busy_until_deadline_rejects (P : Type) (pg : page) (o : options)
        (pre busy : list (event P)) :
  crossings_only (resolve_options pg o) 0%Z pre ->
  promise (deliver_all pre (waitForNetworkIdle pg o)) = None ->
  (Z.max 0 (requests (resolve_options pg o)) <
   fold_left count_step (map (@ev_name P) pre) 0)%Z ->
  stays_above (resolve_options pg o)
              (fold_left count_step (map (@ev_name P) pre) 0%Z) busy ->
  promise (run pg o (pre ++ busy)) =
    Some (Rejected "Waiting for network idle timed out",
          timer_delay (globalTimeout (resolve_options pg o))) /\
  timers (run pg o (pre ++ busy)) = [] /\
  listeners (run pg o (pre ++ busy)) = foreign_listeners pg.
Proof.
  intros Hcross Hp Hgt Hstay. unfold run.
  apply tracking_then_busy; auto.
  - apply waiting_init.
  - split; [|exact Hcross]. split.
    + right. eexists. split; reflexivity.
    + simpl. intros; lia.
Qed.

Lemma busy_until_deadline_rejects_witness :
  promise (run scenario_page busy_options
               ([mkEvent 5 requestfinished tt; mkEvent 10 request tt] ++
                [mkEvent 200 request tt])) =
    Some (Rejected "Waiting for network idle timed out", timer_delay 1000) /\
  timers (run scenario_page busy_options
              ([mkEvent 5 requestfinished tt; mkEvent 10 request tt] ++
               [mkEvent 200 request tt])) = [] /\
  listeners (run scenario_page busy_options
                 ([mkEvent 5 requestfinished tt; mkEvent 10 request tt] ++
                  [mkEvent 200 request tt])) = [].
Proof.
  apply (@busy_until_deadline_rejects unit scenario_page busy_options
           [mkEvent 5 requestfinished tt; mkEvent 10 request tt]
           [mkEvent 200 request tt]).
  - apply crossings_only_at_zero. reflexivity.
  - vm_compute. reflexivity.
  - vm_compute. reflexivity.
  - right. split; [vm_compute; reflexivity|exact Logic.I].
Defined.

(** C3 as it is worded names the message "waiting for network idle timed
    out".  In the second scenario of the specification (threshold 0, quiet
    period 500, deadline 1000, requests started at 0 and at 200) the counter
    is above the threshold from the first event on and the call does reject
    at 1000, but the message of the error begins with a capital letter. *)
Lemma timeout_message_counterexample :
  Forall (fun n => (0 < n)%Z) (running count_step 0%Z busy_trace) /\
  promise (run scenario_page busy_options busy_trace) =
    Some (Rejected "Waiting for network idle timed out", 1000) /\
  promise (run scenario_page busy_options busy_trace) <>
    Some (Rejected "waiting for network idle timed out", 1000).
Proof.
  split; [repeat constructor|].
  split; [vm_compute; reflexivity|vm_compute; discriminate].
Qed.

(** ** What settlement releases *)

Lemma cleanup_promise (st : state) : promise (cleanup st) = promise st.
Proof.
  unfold cleanup.
  assert (G : forall l s, promise (fold_left (fun s fn => run_deferred fn s) l s) = promise s).
  { induction l as [|d l IH]; intros s; simpl; [reflexivity|].
    rewrite IH. destruct d; reflexivity. }
  now rewrite G.
Qed.

(** A promise is settled once: a timer that expires later runs its callback
    but the outcome stays. *)
Lemma settled_once (tm : timer) (st : state) (x : settlement * nat) :
  promise st = Some x -> promise (fire tm st) = Some x.
Proof.
  intros H. unfold fire, run_callback, settle.
  destruct (tm_cb tm); rewrite cleanup_promise; simpl; rewrite H;
    rewrite cleanup_promise; simpl; exact H.
Qed.

(** Every call settles, whatever the page emits.  At that moment the three
    listeners of the call are off the page, and neither the deadline timer
    nor the timer that [timeoutId] names is pending; a page event that comes
    later finds no handler and changes nothing. *)
Lemma settlement_releases (P : Type) (pg : page) (o : options) (tr : list (event P)) :
  (exists s t, promise (run pg o tr) = Some (s, t)) /\
  listeners (run pg o tr) = foreign_listeners pg /\
  (forall tm, In tm (timers (run pg o tr)) ->
              tm_id tm <> globalTimeoutId (run pg o tr) /\
              tm_id tm <> timeoutId (run pg o tr)) /\
  (forall name payload, emit name (payload : P) (run pg o tr) = run pg o tr).
Proof.
  destruct (@run_inv P pg (resolve_options pg o) (fun _ _ => True)
                     (fun _ _ _ _ _ _ => Logic.I) tr _ (waiting_init pg o) Logic.I)
    as (st0 & tr0 & tm & W & _ & _ & _ & Hrun).
  unfold run. rewrite Hrun.
  destruct (fire_waiting tm W) as (Hp & Hl & Ht & _ & Hid & Hgid & _).
  split; [eauto|]. split; [exact Hl|]. split.
  - intros x Hx. rewrite Ht in Hx.
    apply filter_In in Hx. destruct Hx as [Hx H0].
    apply filter_In in Hx. destruct Hx as [_ H1].
    rewrite Hid, Hgid, (w_gid W).
    apply negb_true_iff, Nat.eqb_neq in H0, H1. auto.
  - intros name payload. apply emit_detached with (pg := pg). exact Hl.
Qed.

(** ** Quiet timers that are armed twice *)

(** With the threshold at 0 the quiet timers behave as one: while the call
    waits, the timer [timeoutId] names is pending exactly when nothing is in
    flight, and no other quiet timer is. *)
Section ThresholdZero.

Variables (P : Type) (pg : page) (c : config).

Hypothesis threshold_zero : requests c = 0%Z.

Lemma one_quiet_timer_step (e : event P) (tr : list (event P)) (st : state) :
  waiting pg c st -> one_quiet_timer c st ->
  Forall (fun tm => beats e (tm_due tm) = true) (timers st) ->
  one_quiet_timer c (handler (ev_name e) (set_now (Nat.max (now st) (ev_time e)) st)).
Proof.
  intros W H _. pose proof (w_cfg W) as Hc. pose proof (w_tid W) as Htid.
  pose proof (w_inFlight W) as Hi.
  assert (Rq : one_quiet_timer c (onRequest (set_now (Nat.max (now st) (ev_time e)) st))).
  { right. unfold onRequest; simpl. rewrite Hc, threshold_zero.
    destruct (0 <? inFlight st + 1)%Z eqn:E; [|apply Z.ltb_ge in E; lia].
    simpl. split; [lia|].
    destruct H as [(_ & tm & Ht & Hid)|(_ & Ht)]; rewrite Ht.
    - simpl. destruct (timeoutId st) as [|k] eqn:Ek; [lia|]. simpl.
      rewrite Hid. now rewrite Nat.eqb_refl.
    - apply filter_deadline. lia. }
  assert (Rs : one_quiet_timer c (onResponse (set_now (Nat.max (now st) (ev_time e)) st))).
  { unfold onResponse; simpl.
    destruct (inFlight st =? 0)%Z eqn:E0.
    - exact H.
    - apply Z.eqb_neq in E0.
      destruct H as [(Hz & _)|(_ & Ht)]; [congruence|].
      simpl. rewrite Hc, threshold_zero.
      destruct (inFlight st - 1 <=? 0)%Z eqn:E; simpl.
      + apply Z.leb_le in E. left. simpl. split; [lia|].
        rewrite Ht. eexists. split; reflexivity.
      + apply Z.leb_gt in E. right. simpl. split; [lia|exact Ht]. }
  destruct (ev_name e); simpl; assumption.
Qed.

Lemma threshold_zero_one_quiet_timer (tr : list (event P)) (st : state) :
  waiting pg c st -> one_quiet_timer c st ->
  promise (deliver_all tr st) = None ->
  one_quiet_timer c (deliver_all tr st).
Proof.
  intros W H Hp.
  destruct (@deliver_all_inv P pg c (fun _ => one_quiet_timer c) one_quiet_timer_step tr st W H)
    as [[_ H']|(st0 & e & tr0 & tm & _ & _ & _ & _ & E)]; [exact H'|].
  rewrite E in Hp. pose proof (fire_settled tm st0) as F.
  unfold settled in F. rewrite Hp in F. discriminate.
Qed.

End ThresholdZero.

(** With the default threshold every state in which the call still waits
    has at most one quiet timer pending, and has it exactly when the counter
    is at the threshold: quiet timers are armed when the counter comes down
    to 0 and cancelled when it leaves 0. *)
Lemma default_threshold_one_quiet_timer (P : Type) (pg : page) (o : options)
      (tr : list (event P)) :
  requests (resolve_options pg o) = 0%Z ->
  promise (deliver_all tr (waitForNetworkIdle pg o)) = None ->
  one_quiet_timer (resolve_options pg o) (deliver_all tr (waitForNetworkIdle pg o)).
Proof.
  intros H0 Hp. apply threshold_zero_one_quiet_timer with (pg := pg).
  - exact H0.
  - apply waiting_init.
  - left. split; [reflexivity|]. eexists. split; reflexivity.
  - exact Hp.
Qed.

(** C1, evaluated where it fails.  Threshold 1, quiet period 500, deadline
    3000; requests start at 10 and 30 and finish at 20 and 40.  Each finish
    arms a quiet timer and none is cancelled, the counter never being above
    the threshold.  The first quiet timer expires at 500: the call resolves
    and the listeners are off, the deadline timer and the timer armed at 40
    are cancelled, but the timer armed at 20 is still pending after the
    outcome.  When it expires it runs the clean-up a second time, on a
    promise that keeps its outcome. *)
Theorem stale_timer_outlives_settlement :
  let st := run scenario_page tolerant_options
                [mkEvent 10 request tt; mkEvent 20 requestfinished tt;
                 mkEvent 30 request tt; mkEvent 40 requestfinished tt] in
  promise st = Some (Resolved, 500) /\
  listeners st = [] /\
  timers st = [mkTimer 2 20 520 cleanupAndResolve] /\
  promise (fire (mkTimer 2 20 520 cleanupAndResolve) st) = Some (Resolved, 500) /\
  now (fire (mkTimer 2 20 520 cleanupAndResolve) st) = 520.
Proof. vm_compute. repeat split; reflexivity. Qed.

(** C4, evaluated where it fails.  Threshold 1, quiet period 500, deadline
    3000.  A request starts at 10 and finishes at 20: the counter goes from
    1 to 0 without crossing the threshold, yet a second quiet timer is
    armed beside the first.  Two more requests start at 30 and 40: the
    counter is 2, above the threshold, the timer armed at 20 is cancelled
    but the first one is still pending, and at 500 it resolves the call
    with two requests in flight. *)
Theorem quiet_timers_pile_up :
  let st0 := waitForNetworkIdle scenario_page tolerant_options in
  let st1 := deliver_all [mkEvent 10 request tt; mkEvent 20 requestfinished tt] st0 in
  let st2 := deliver_all [mkEvent 30 request tt; mkEvent 40 request tt] st1 in
  promise st1 = None /\
  timers st1 = [mkTimer 0 0 3000 (cleanupAndReject timeout_message);
                mkTimer 1 0 500 cleanupAndResolve;
                mkTimer 2 20 520 cleanupAndResolve] /\
  promise st2 = None /\ inFlight st2 = 2%Z /\
  timers st2 = [mkTimer 0 0 3000 (cleanupAndReject timeout_message);
                mkTimer 1 0 500 cleanupAndResolve] /\
  promise (run_timers None st2) = Some (Resolved, 500).
Proof. vm_compute. repeat split; reflexivity. Qed.


(** * Further properties of [waitForNetworkIdle] *)

(** ** How and when a call ends *)

Lemma next_timer_cons (a : timer) (l : list timer) (tm : timer) :
  next_timer (a :: l) = Some tm ->
  tm = a \/ (In tm l /\ tm_due tm < tm_due a).
Proof.
  simpl. destruct (next_timer l) as [b|] eqn:E.
  - destruct (tm_due b <? tm_due a) eqn:C; intros H; inversion H; subst.
    + right. apply Nat.ltb_lt in C. split; [|exact C].
      apply next_timer_some in E. tauto.
    + now left.
  - intros H; inversion H. now left.
Qed.

(** The timer that runs next in a waiting state is not overdue. *)
Lemma waiting_next_due (pg : page) (c : config) (st : state) (tm : timer) :
  waiting pg c st -> next_timer (timers st) = Some tm ->
  Nat.max (now st) (tm_due tm) = tm_due tm.
Proof.
  intros W H. apply next_timer_some in H. destruct H as [Hin _].
  destruct (w_timers W) as [qs [Hq Hqs]]. rewrite Hq in Hin.
  apply Nat.max_r. destruct Hin as [<-|Hin].
  - exact (w_now W).
  - rewrite Forall_forall in Hqs. now destruct (Hqs tm Hin) as (_ & _ & _ & H).
Qed.

(** Whatever the page emits, the call ends in one of two ways: it rejects
    with the time-out error exactly when the deadline timer is due, or it
    resolves at a time that is at least one quiet period after the call and
    strictly before the deadline timer is due; the quiet period and the
    deadline being the delays as the runtime takes them. *)
Theorem settles_by_deadline (P : Type) (pg : page) (o : options) (tr : list (event P)) :
  promise (run pg o tr) =
    Some (Rejected timeout_message, timer_delay (globalTimeout (resolve_options pg o))) \/
  exists t,
    promise (run pg o tr) = Some (Resolved, t) /\
    timer_delay (timeout (resolve_options pg o)) <= t <
    timer_delay (globalTimeout (resolve_options pg o)).
Proof.
  pose proof (waiting_init pg o) as W0.
  remember (resolve_options pg o) as c eqn:Ec.
  destruct (@run_inv P pg c (fun _ _ => True) (fun _ _ _ _ _ _ => Logic.I)
                     tr _ W0 Logic.I)
    as (st0 & tr0 & tm & W & _ & Htm & _ & Hrun).
  unfold run. rewrite Hrun.
  destruct (fire_waiting tm W) as (Hp & _). rewrite Hp.
  rewrite (waiting_next_due W Htm).
  destruct (w_timers W) as [qs [Hq Hqs]]. rewrite Hq in Htm.
  destruct (next_timer_cons _ _ Htm) as [->|[Hin Hlt]].
  - left. reflexivity.
  - right. rewrite Forall_forall in Hqs.
    destruct (Hqs tm Hin) as (Hcb & _ & Hdue & _).
    rewrite Hcb. exists (tm_due tm). split; [reflexivity|].
    rewrite (w_cfg W) in Hdue. simpl in Hlt. lia.
Qed.

(** A request that starts in the millisecond in which the quiet timer is
    due: when the timer is served first the call resolves, when the request
    is served first it cancels the timer and the call runs into the
    deadline. *)
Lemma same_millisecond_either_order :
  promise (run scenario_page scenario_options [mkEventAt 500 request tt false]) =
    Some (Resolved, 500) /\
  promise (run scenario_page scenario_options [mkEventAt 500 request tt true]) =
    Some (Rejected timeout_message, 3000).
Proof. vm_compute. split; reflexivity. Qed.

(** An event that comes when the call has settled has no part in the run:
    the final state is the same with or without it.  So has an event that
    comes in the millisecond of the settlement, unless it is served before
    the timers of that millisecond. *)
Theorem late_events_are_ignored (P : Type) (pg : page) (o : options)
        (tr late : list (event P)) (s : settlement) (t : nat) :
  promise (run pg o tr) = Some (s, t) ->
  Forall (fun e => t < ev_time e \/ (t = ev_time e /\ ev_early e = false)) late ->
  run pg o (tr ++ late) = run pg o tr.
Proof.
  intros Hp Hlate. unfold run in *.
  rewrite deliver_all_app.
  destruct (@deliver_all_inv P pg (resolve_options pg o) (fun _ _ => True)
                             (fun _ _ _ _ _ _ => Logic.I)
                             tr _ (waiting_init pg o) Logic.I)
    as [[W _]|(st0 & e & tr0 & tm & _ & _ & _ & _ & E)].
  - destruct (drain_waiting W) as (tm & Htm & Hrun).
    rewrite Hrun in Hp |- *.
    destruct (fire_waiting tm W) as (Hp' & _).
    rewrite Hp', (waiting_next_due W Htm) in Hp. inversion Hp; subst s t.
    destruct late as [|e late]; [simpl; now rewrite Hrun|].
    inversion Hlate as [|x l He _]; subst x l.
    change (deliver_all (e :: late) (deliver_all tr (waitForNetworkIdle pg o)))
      with (deliver_all late (deliver e (deliver_all tr (waitForNetworkIdle pg o)))).
    destruct (deliver_waiting e W) as [(tm' & Htm' & _ & Hd)|(Hnd & _)].
    + rewrite Htm in Htm'. inversion Htm'; subst tm'.
      rewrite Hd, deliver_all_settled by apply fire_settled.
      unfold run_timers. apply timers_phase_settled, fire_settled.
    + exfalso. apply next_timer_some in Htm. destruct Htm as [Hin _].
      rewrite Forall_forall in Hnd. specialize (Hnd tm Hin).
      unfold beats in Hnd. destruct He as [He|[He Hflag]].
      * destruct (ev_early e);
          [apply Nat.leb_le in Hnd|apply Nat.ltb_lt in Hnd]; lia.
      * rewrite Hflag in Hnd. apply Nat.ltb_lt in Hnd. lia.
  - rewrite E. rewrite deliver_all_settled by apply fire_settled. reflexivity.
Qed.

Lemma late_events_are_ignored_witness :
  run scenario_page scenario_options (scenario_trace ++ [mkEvent 600 request tt]) =
  run scenario_page scenario_options scenario_trace.
Proof.
  apply (@late_events_are_ignored unit scenario_page scenario_options scenario_trace
           [mkEvent 600 request tt] Resolved 600).
  - vm_compute. reflexivity.
  - constructor; [|constructor]. right. split; reflexivity.
Defined.

(** ** Idle means idle, at the default threshold *)

Lemma in_time_order_tail (P : Type) (pre : list (event P)) (e : event P)
      (post : list (event P)) :
  in_time_order (pre ++ e :: post) ->
  Forall (fun x => ev_time e <= ev_time x) (e :: post).
Proof.
  unfold in_time_order. induction pre as [|a pre IH]; simpl; intros H.
  - inversion H as [|x l Hs Hall]; subst. constructor; [lia|exact Hall].
  - inversion H; subst. auto.
Qed.

Section QuietSince.

Variables (P : Type) (pg : page) (c : config).

Hypothesis threshold_zero : requests c = 0%Z.

Variable full : list (event P).

Lemma delivered_step (e : event P) (tr : list (event P)) (st : state) :
  waiting pg c st -> delivered c full (e :: tr) st ->
  Forall (fun tm => beats e (tm_due tm) = true) (timers st) ->
  delivered c full tr (handler (ev_name e) (set_now (Nat.max (now st) (ev_time e)) st)).
Proof.
  intros W (pre & Hfull & Hnow & Hone & Harmed) Hnd.
  pose proof (@one_quiet_timer_step P pg c threshold_zero e tr st W Hone Hnd) as Hone'.
  exists (pre ++ [e]). split; [now rewrite <- app_assoc|].
  set (st1 := set_now (Nat.max (now st) (ev_time e)) st) in *.
  assert (Hclock : now (handler (ev_name e) st1) = Nat.max (now st) (ev_time e)).
  { destruct (ev_name e); simpl; unfold onRequest, onResponse; simpl;
      repeat match goal with |- context [if ?b then _ else _] => destruct b end;
      reflexivity. }
  split; [|split; [exact Hone'|]].
  - rewrite Hclock. apply Forall_app. split.
    + eapply Forall_impl; [|exact Hnow]. simpl; intros; lia.
    + constructor; [lia|constructor].
  - intros tm Hin Hcb. apply Forall_app.
    destruct (ev_name e) eqn:En.
    + (* a started request: no quiet timer is left *)
      exfalso. destruct Hone' as [(Hz & _)|(_ & Ht)].
      * rewrite inFlight_handler in Hz. simpl in Hz.
        pose proof (w_inFlight W). lia.
      * rewrite Ht in Hin. destruct Hin as [<-|[]]. discriminate.
    + simpl in Hin, Hone' |- *. unfold onResponse in Hin. simpl in Hin.
      destruct (inFlight st =? 0)%Z eqn:E0.
      * split; [apply Harmed; assumption|].
        constructor; [|constructor]. rewrite En. discriminate.
      * destruct Hone as [(Hz & _)|(_ & Ht)];
          [apply Z.eqb_neq in E0; congruence|].
        simpl in Hin.
        destruct (inFlight st - 1 <=? requests (cfg st))%Z; simpl in Hin;
          rewrite Ht in Hin.
        -- destruct Hin as [<-|[<-|[]]]; [discriminate|]. simpl.
           split; [|constructor; [intros; lia|constructor]].
           eapply Forall_impl; [|exact Hnow]. simpl; intros; lia.
        -- destruct Hin as [<-|[]]. discriminate.
    + simpl in Hin, Hone' |- *. unfold onResponse in Hin. simpl in Hin.
      destruct (inFlight st =? 0)%Z eqn:E0.
      * split; [apply Harmed; assumption|].
        constructor; [|constructor]. rewrite En. discriminate.
      * destruct Hone as [(Hz & _)|(_ & Ht)];
          [apply Z.eqb_neq in E0; congruence|].
        simpl in Hin.
        destruct (inFlight st - 1 <=? requests (cfg st))%Z; simpl in Hin;
          rewrite Ht in Hin.
        -- destruct Hin as [<-|[<-|[]]]; [discriminate|]. simpl.
           split; [|constructor; [intros; lia|constructor]].
           eapply Forall_impl; [|exact Hnow]. simpl; intros; lia.
        -- destruct Hin as [<-|[]]. discriminate.
Qed.

Lemma delivered_run (st : state) (t : nat) :
  waiting pg c st -> delivered c full full st ->
  in_time_order full ->
  promise (run_timers None (deliver_all full st)) = Some (Resolved, t) ->
  inFlight (run_timers None (deliver_all full st)) = 0%Z /\
  Forall (fun e => ev_name e = request ->
                   ev_time e + timer_delay (timeout c) <= t \/ t <= ev_time e) full.
Proof.
  intros W HI Hsorted Hp.
  destruct (@run_inv P pg c (delivered c full) delivered_step full st W HI)
    as (st0 & tr0 & tm & W' & (pre & Hfull & Hnow & Hone & Harmed) & Htm & Hdue & Hrun).
  rewrite Hrun in Hp |- *.
  destruct (fire_waiting tm W') as (Hp' & _ & _ & Hi & _).
  rewrite Hp', (waiting_next_due W' Htm) in Hp. inversion Hp as [[Hcb Ht]].
  assert (Hres : tm_cb tm = cleanupAndResolve).
  { destruct (tm_cb tm); [reflexivity|discriminate]. }
  destruct (@next_timer_some _ _ Htm) as [Hin _].
  split.
  - rewrite Hi. destruct Hone as [(Hz & _)|(_ & Hts)]; [exact Hz|].
    rewrite Hts in Hin. destruct Hin as [<-|[]]. discriminate.
  - assert (Hdue' : tm_due tm = tm_armed tm + timer_delay (timeout c)).
    { destruct (w_timers W') as [qs [Hq Hqs]]. rewrite Hq in Hin.
      destruct Hin as [<-|Hin]; [discriminate|].
      rewrite Forall_forall in Hqs. destruct (Hqs tm Hin) as (_ & _ & H & _).
      now rewrite (w_cfg W') in H. }
    rewrite Hfull. apply Forall_app. split.
    + eapply Forall_impl; [|exact (Harmed tm Hin Hres)].
      simpl. intros e He Hreq. left. specialize (He Hreq). lia.
    + destruct tr0 as [|e0 tr0]; [constructor|].
      rewrite Hfull in Hsorted. apply in_time_order_tail in Hsorted.
      apply not_beats_ge in Hdue.
      eapply Forall_impl; [|exact Hsorted].
      simpl. intros e He _. right. lia.
Qed.

End QuietSince.

(** With the threshold at 0 and the events in the order of their time
    stamps, a call that resolves at [t] has seen no request start during the
    quiet period that ends at [t]: every started request of the trace comes
    a quiet period before [t] at the latest, or not before [t], when nobody
    listens any more.  The quiet period is the delay as the runtime takes
    it.  At that moment the counter is 0. *)
Theorem resolves_only_after_quiet (P : Type) (pg : page) (o : options)
        (tr : list (event P)) (t : nat) :
  requests (resolve_options pg o) = 0%Z ->
  in_time_order tr ->
  promise (run pg o tr) = Some (Resolved, t) ->
  inFlight (run pg o tr) = 0%Z /\
  Forall (fun e => ev_name e = request ->
                   ev_time e + timer_delay (timeout (resolve_options pg o)) <= t \/
                   t <= ev_time e) tr.
Proof.
  intros H0 Hs Hp. unfold run in *.
  apply delivered_run with (pg := pg); auto.
  - apply waiting_init.
  - exists []. split; [reflexivity|]. split; [constructor|]. split.
    + left. split; [reflexivity|]. eexists. split; reflexivity.
    + intros; constructor.
Qed.

Lemma resolves_only_after_quiet_witness :
  inFlight (run scenario_page scenario_options scenario_trace) = 0%Z /\
  Forall (fun e => ev_name e = request -> ev_time e + 500 <= 600 \/ 600 <= ev_time e)
         scenario_trace.
Proof.
  apply (@resolves_only_after_quiet unit scenario_page scenario_options scenario_trace 600).
  - reflexivity.
  - repeat constructor.
  - vm_compute. reflexivity.
Defined.

(** ** The counter and the two kinds of completion *)


(** As long as the call is waiting, [inFlight] is what the events delivered
    so far add up to when each started request counts one up and each
    finished or failed request one down, except at 0. *)
Theorem inFlight_follows_events (P : Type) (pg : page) (o : options)
        (tr : list (event P)) :
  promise (deliver_all tr (waitForNetworkIdle pg o)) = None ->
  inFlight (deliver_all tr (waitForNetworkIdle pg o)) =
  fold_left count_step (map (@ev_name P) tr) 0%Z.
Proof.
  intros Hp.
  apply (counter_follows_trace (pg := pg) (c := resolve_options pg o));
    [apply waiting_init|exact Hp].
Qed.

Lemma inFlight_follows_events_witness :
  inFlight (deliver_all [mkEvent 10 requestfailed tt; mkEvent 20 request tt;
                         mkEvent 30 request tt; mkEvent 40 requestfinished tt]
                        (waitForNetworkIdle scenario_page scenario_options)) = 1%Z.
Proof.
  apply (@inFlight_follows_events unit scenario_page scenario_options
           [mkEvent 10 requestfailed tt; mkEvent 20 request tt;
            mkEvent 30 request tt; mkEvent 40 requestfinished tt]).
  vm_compute. reflexivity.
Defined.

(** A request that fails weighs as much as one that finishes: turning every
    failed event of a trace into a finished one changes nothing in the run
    of the call. *)
Theorem failed_counts_as_finished (P : Type) (pg : page) (o : options)
        (tr : list (event P)) :
  run pg o (map (@as_finished P) tr) = run pg o tr.
Proof.
  unfold run. f_equal.
  apply failed_as_finished with (pg := pg) (c := resolve_options pg o).
  left. apply waiting_init.
Qed.

(** ** A stale timer after the settlement *)

Lemma remove_first_foreign (x : event_name * listener) (fl : list (event_name * nat)) :
  (forall n, snd x <> L_foreign n) ->
  remove_first x (map (fun r => (fst r, L_foreign (snd r))) fl) =
  map (fun r => (fst r, L_foreign (snd r))) fl.
Proof.
  intros Hx. induction fl as [|r fl IH]; simpl; [reflexivity|].
  unfold registration_eqb; simpl.
  destruct x as [n l]; simpl in *.
  destruct l; simpl; rewrite ?andb_false_r; try (now rewrite IH).
  exfalso. eapply Hx. reflexivity.
Qed.

Lemma removeListener_foreign (pg : page) (name : event_name) (fn : listener) (st : state) :
  (forall n, fn <> L_foreign n) ->
  listeners st = foreign_listeners pg ->
  listeners (removeListener name fn st) = foreign_listeners pg.
Proof.
  intros Hfn H. unfold removeListener; simpl. rewrite H.
  unfold foreign_listeners. rewrite <- map_rev.
  rewrite remove_first_foreign by exact Hfn.
  now rewrite map_rev, rev_involutive.
Qed.

Lemma fire_waiting_deferred (pg : page) (c : config) (st : state) (tm : timer) :
  waiting pg c st ->
  deferred (fire tm st) = [D_removeListeners; D_clearTimeout; D_clearGlobalTimeout].
Proof.
  intros W. unfold fire, run_callback, cleanup; simpl.
  rewrite (w_deferred W); simpl.
  destruct (tm_cb tm); unfold settle; simpl; rewrite (w_promise W); reflexivity.
Qed.

(** When a quiet timer that was left pending expires after the settlement,
    the clean-up runs once more over a page that no longer carries the
    listeners of the call.  It finds nothing to remove: the outcome and its
    time stay, the page keeps exactly its own listeners, the counter is
    untouched. *)
Theorem second_cleanup_is_harmless (P : Type) (pg : page) (o : options)
        (tr : list (event P)) (tm : timer) :
  promise (fire tm (run pg o tr)) = promise (run pg o tr) /\
  listeners (fire tm (run pg o tr)) = foreign_listeners pg /\
  inFlight (fire tm (run pg o tr)) = inFlight (run pg o tr).
Proof.
  destruct (@run_inv P pg (resolve_options pg o) (fun _ _ => True)
                     (fun _ _ _ _ _ _ => Logic.I) tr _ (waiting_init pg o) Logic.I)
    as (st0 & tr0 & tm0 & W & _ & _ & _ & Hrun).
  unfold run. rewrite Hrun.
  destruct (fire_waiting tm0 W) as (Hp & Hl & _).
  pose proof (fire_waiting_deferred tm0 W) as Hd.
  set (st := fire tm0 st0) in *.
  split; [rewrite Hp; apply settled_once; exact Hp|].
  unfold fire, run_callback, cleanup. simpl. rewrite Hd. simpl.
  assert (L : forall s, listeners s = foreign_listeners pg ->
                        listeners (run_deferred D_removeListeners s) = foreign_listeners pg).
  { intros s Hs. unfold run_deferred.
    repeat apply removeListener_foreign; try discriminate. exact Hs. }
  destruct (tm_cb tm); unfold settle;
    match goal with
    | |- context [promise ?s] => destruct (promise s)
    end; simpl; (split; [apply L; exact Hl|reflexivity]).
Qed.

(** * The rest of the program *)

(** ** Exit codes *)

Lemma handleError_truthy (extra : list string) (error : value) :
  truthy (snd (handleError extra error)) = true.
Proof.
  unfold handleError. cbv zeta. cbn [snd].
  match goal with
  | |- truthy (js_or (if truthy ?e then _ else _) _) = true => generalize e
  end.
  intros e. unfold js_or.
  destruct (truthy e) eqn:T.
  - destruct (truthy (exitCode_of e)) eqn:T'; [exact T'|reflexivity].
  - rewrite T. reflexivity.
Qed.

(** The process exits with 0 when [main] completes and only then: when
    [main] throws, whatever it throws and whatever the extra options, the
    value handed to [process.exit] is truthy, hence neither 0 nor
    undefined. *)
Theorem exit_zero_iff_success (extra : list string) (thrown : option value) :
  (thrown = None -> command_exit extra thrown = VNumber 0) /\
  (thrown <> None ->
   truthy (command_exit extra thrown) = true /\
   command_exit extra thrown <> VNumber 0 /\
   command_exit extra thrown <> VUndefined).
Proof.
  split.
  - intros ->. reflexivity.
  - intros H. destruct thrown as [error|]; [clear H|congruence].
    assert (T : truthy (command_exit extra (Some error)) = true).
    { unfold command_exit, js_or. rewrite handleError_truthy.
      apply handleError_truthy. }
    split; [exact T|].
    split; intros E; rewrite E in T; discriminate.
Qed.

Lemma exit_zero_iff_success_witness :
  command_exit [] None = VNumber 0 /\
  truthy (command_exit [] (Some (VError (VString "boom") (VNumber 3)))) = true.
Proof.
  split.
  - apply (exit_zero_iff_success [] None). reflexivity.
  - apply (exit_zero_iff_success [] (Some (VError (VString "boom") (VNumber 3)))).
    discriminate.
Defined.

(** Without the extra option [traceback] an [Error] is reduced to its
    message before its exit code is read: the message is what gets printed
    and the process exits with 1, whatever [exitCode] the error carried.
    With [traceback] the error itself is printed and a truthy [exitCode] is
    the exit code. *)
Theorem error_exit_code (extra : list string) (message : string) (code : value) :
  (includes extra "traceback" = false ->
   handleError extra (VError (VString message) code) = (VString message, VNumber 1) /\
   command_exit extra (Some (VError (VString message) code)) = VNumber 1) /\
  (includes extra "traceback" = true -> truthy code = true ->
   handleError extra (VError (VString message) code) =
     (VError (VString message) code, code) /\
   command_exit extra (Some (VError (VString message) code)) = code).
Proof.
  split.
  - intros H. unfold command_exit, handleError, js_or. rewrite H.
    destruct message; cbn; split; reflexivity.
  - intros H T. unfold command_exit, handleError, js_or. rewrite H. cbn.
    rewrite T. cbn. rewrite T. split; reflexivity.
Qed.

Lemma error_exit_code_witness :
  command_exit ["headful"%string] (Some (VError (VString "boom") (VNumber 3))) = VNumber 1 /\
  command_exit ["traceback"%string] (Some (VError (VString "boom") (VNumber 3))) = VNumber 3.
Proof.
  split.
  - apply (error_exit_code ["headful"%string] "boom" (VNumber 3)). reflexivity.
  - apply (error_exit_code ["traceback"%string] "boom" (VNumber 3)); reflexivity.
Defined.

(** ** The time of day *)

Lemma length_append (s1 s2 : string) :
  String.length (s1 ++ s2) = String.length s1 + String.length s2.
Proof. induction s1 as [|a s1 IH]; simpl; [reflexivity|now rewrite IH]. Qed.

Lemma length_spaces (n : nat) : String.length (spaces n) = n.
Proof. induction n as [|n IH]; simpl; [reflexivity|now rewrite IH]. Qed.

Lemma length_padStart (n : nat) (s : string) :
  String.length (padStart n s) = Nat.max n (String.length s).
Proof. unfold padStart. rewrite length_append, length_spaces. lia. Qed.

Lemma no_line_terminator_append (s1 s2 : string) :
  no_line_terminator (s1 ++ s2) = no_line_terminator s1 && no_line_terminator s2.
Proof.
  induction s1 as [|a s1 IH]; simpl; [reflexivity|].
  now rewrite IH, andb_assoc.
Qed.

Lemma no_line_terminator_spaces (n : nat) : no_line_terminator (spaces n) = true.
Proof. induction n as [|n IH]; simpl; [reflexivity|exact IH]. Qed.

Lemma no_line_terminator_replace_colon (s : string) :
  no_line_terminator s = true -> no_line_terminator (replace_colon s) = true.
Proof.
  induction s as [|a s IH]; simpl; [reflexivity|].
  intros H. apply andb_true_iff in H. destruct H as [Ha Hs].
  destruct (Ascii.eqb a ":"); [exact Hs|].
  simpl. rewrite Ha. simpl. apply IH, Hs.
Qed.

(** Sum of the lengths of the pieces. *)
Lemma match_pairs_covers (n : nat) (s : string) :
  String.length s <= n ->
  no_line_terminator s = true ->
  String.length (String.concat "" (match_pairs s)) = String.length s /\
  String.length s <= 2 * List.length (match_pairs s).
Proof.
  revert s; induction n as [|n IH]; intros s Hn Hs.
  - destruct s; simpl in *; [split; reflexivity|lia].
  - destruct s as [|a [|b s]]; simpl in *.
    + split; reflexivity.
    + apply andb_true_iff in Hs. destruct Hs as [Ha _].
      apply negb_true_iff in Ha. rewrite Ha. simpl. split; [reflexivity|lia].
    + apply andb_true_iff in Hs. destruct Hs as [Ha Hs].
      apply andb_true_iff in Hs. destruct Hs as [Hb Hs].
      apply negb_true_iff in Ha, Hb. rewrite Ha, Hb.
      destruct (IH s ltac:(lia) Hs) as [H1 H2].
      cbn [List.length]. split; [|lia].
      destruct (match_pairs s) as [|x l] eqn:E.
      * simpl in *. lia.
      * change (String.concat "" (String a (String b "") :: x :: l))
          with (String a (String b (String.concat "" (x :: l)))).
        cbn [String.length]. rewrite H1. reflexivity.
Qed.

Lemma length_concat_colon (l : list string) :
  l <> [] ->
  String.length (String.concat ":" l) =
  String.length (String.concat "" l) + (List.length l - 1).
Proof.
  induction l as [|x l IH]; [congruence|]. intros _.
  destruct l as [|y l].
  - simpl. lia.
  - change (String.concat ":" (x :: y :: l))
      with (x ++ ":" ++ String.concat ":" (y :: l))%string.
    change (String.concat "" (x :: y :: l))
      with (x ++ "" ++ String.concat "" (y :: l))%string.
    rewrite !length_append, IH by discriminate.
    cbn [List.length String.length]. lia.
Qed.

(** An hour of eight characters is taken as it is.  Any other hour (free
    of line terminators) is not brought into the shape HH:MM:SS: what comes
    out has eleven characters at least.  So for the two hours the comment in
    the source names: [80:30:2] and [0::] do not become [08:03:02] and
    [00:00:00]. *)
Theorem hour_kept_or_stretched (unsafeHour : string) :
  no_line_terminator unsafeHour = true ->
  (String.length unsafeHour = 8 -> hour unsafeHour = Some unsafeHour) /\
  (String.length unsafeHour <> 8 ->
   exists h, hour unsafeHour = Some h /\ 11 <= String.length h) /\
  hour "80:30:2" = Some "  :80:30::2"%string /\
  hour "0::" = Some "  :  :  :0:"%string.
Proof.
  intros Hs. split; [|split; [|split; reflexivity]].
  - intros H. unfold hour. now rewrite H.
  - intros H. unfold hour.
    destruct (String.length unsafeHour =? 8) eqn:E; [apply Nat.eqb_eq in E; lia|].
    set (p := padStart 8 (replace_colon unsafeHour)).
    assert (Hp : no_line_terminator p = true).
    { unfold p, padStart. rewrite no_line_terminator_append, no_line_terminator_spaces.
      simpl. apply no_line_terminator_replace_colon, Hs. }
    assert (Hlen : 8 <= String.length p).
    { unfold p. rewrite length_padStart. lia. }
    destruct (@match_pairs_covers (String.length p) p (le_n _) Hp) as [H1 H2].
    destruct (match_pairs p) as [|x l] eqn:El; [simpl in H2; lia|].
    eexists. split; [reflexivity|].
    rewrite length_concat_colon by discriminate.
    rewrite H1. lia.
Qed.

Lemma hour_kept_or_stretched_witness :
  hour "12:30:45" = Some "12:30:45"%string /\
  exists h, hour "8:30:02" = Some h /\ 11 <= String.length h.
Proof.
  split.
  - apply (hour_kept_or_stretched "12:30:45"); reflexivity.
  - apply (hour_kept_or_stretched "8:30:02"); [reflexivity|].
    apply Nat.eqb_neq. vm_compute. reflexivity.
Defined.

(** ** Traffic that calms down *)

Section Settling.

Variables (P : Type) (pg : page) (c : config) (bound : nat).

Lemma settling_step (e : event P) (tr : list (event P)) (st : state) :
  waiting pg c st -> settling c bound (e :: tr) st ->
  Forall (fun tm => beats e (tm_due tm) = true) (timers st) ->
  settling c bound tr (handler (ev_name e) (set_now (Nat.max (now st) (ev_time e)) st)).
Proof.
  intros W (Hb & Hnow & Harmed & Hq) _.
  inversion Hb as [|x l He Hb']; subst x l.
  pose proof (w_cfg W) as Hc.
  assert (Harmed' : Forall (fun tm => tm_armed tm <= Nat.max (now st) (ev_time e))
                           (timers st)).
  { eapply Forall_impl; [|exact Harmed]. simpl; intros; lia. }
  assert (Rq : settling c bound tr (onRequest (set_now (Nat.max (now st) (ev_time e)) st))).
  { unfold onRequest; simpl. rewrite Hc.
    destruct (requests c <? inFlight st + 1)%Z eqn:E; simpl.
    - apply Z.ltb_lt in E. split; [exact Hb'|]. split; [simpl; lia|]. split.
      + simpl. rewrite Forall_forall in *. intros tm Hin.
        apply filter_In in Hin. apply Harmed', Hin.
      + simpl. intros; lia.
    - apply Z.ltb_ge in E. split; [exact Hb'|]. split; [simpl; lia|].
      split; [exact Harmed'|]. simpl. intros _. apply Hq. lia. }
  assert (Rs : settling c bound tr (onResponse (set_now (Nat.max (now st) (ev_time e)) st))).
  { unfold onResponse; simpl.
    destruct (inFlight st =? 0)%Z eqn:E0.
    - split; [exact Hb'|]. split; [simpl; lia|]. split; [exact Harmed'|exact Hq].
    - simpl. rewrite Hc.
      destruct (inFlight st - 1 <=? requests c)%Z eqn:E; simpl.
      + split; [exact Hb'|]. split; [simpl; lia|]. split.
        * simpl. apply Forall_app. split; [exact Harmed'|].
          constructor; [simpl; lia|constructor].
        * simpl. intros _. eexists. split; [apply in_or_app; right; left; reflexivity|].
          reflexivity.
      + apply Z.leb_gt in E.
        split; [exact Hb'|]. split; [simpl; lia|]. split; [exact Harmed'|].
        simpl. intros; lia. }
  destruct (ev_name e); simpl; assumption.
Qed.

Lemma settling_run (tr : list (event P)) (st : state) :
  waiting pg c st -> settling c bound tr st ->
  (fold_left count_step (map (@ev_name P) tr) (inFlight st) <= requests c)%Z ->
  bound + timer_delay (timeout c) < timer_delay (globalTimeout c) ->
  exists t, promise (run_timers None (deliver_all tr st)) = Some (Resolved, t) /\
            t <= bound + timer_delay (timeout c).
Proof.
  intros W HI Hcount Hlt.
  assert (Quiet : forall st0 tm, waiting pg c st0 -> In tm (timers st0) ->
                    tm_due tm < timer_delay (globalTimeout c) ->
                    tm_cb tm = cleanupAndResolve /\
                    tm_due tm = tm_armed tm + timer_delay (timeout c)).
  { intros st0 tm W0 Hin Hdue. destruct (w_timers W0) as [qs [Hq Hqs]].
    rewrite Hq in Hin. destruct Hin as [<-|Hin]; [simpl in Hdue; lia|].
    rewrite Forall_forall in Hqs. destruct (Hqs tm Hin) as (A & _ & B & _).
    rewrite (w_cfg W0) in B. auto. }
  destruct (@deliver_all_inv P pg c (settling c bound) settling_step tr st W HI)
    as [[W' (_ & Hnow & Harmed & Hq)]
       |(st0 & e & tr0 & tm & W' & (Hb & _) & Htm & Hdue & E)].
  - (* all events delivered: a quiet timer is pending and due in time *)
    destruct (drain_waiting W') as (tm & Htm & Hrun). rewrite Hrun.
    destruct (fire_waiting tm W') as (Hp & _).
    rewrite Hp, (waiting_next_due W' Htm).
    destruct Hq as (tq & Hin & Hcb).
    { rewrite (counter_follows_trace tr W (w_promise W')). exact Hcount. }
    destruct (@next_timer_some _ _ Htm) as [Hin' Hmin].
    rewrite Forall_forall in Hmin, Harmed.
    pose proof (Hmin tq Hin) as Hle. pose proof (Harmed tq Hin) as Ha.
    assert (Hdq : tm_due tq = tm_armed tq + timer_delay (timeout c)).
    { destruct (w_timers W') as [qs [Hqq Hqs]]. rewrite Hqq in Hin.
      destruct Hin as [<-|Hin]; [discriminate|].
      rewrite Forall_forall in Hqs. destruct (Hqs tq Hin) as (_ & _ & B & _).
      now rewrite (w_cfg W') in B. }
    destruct (Quiet _ tm W' Hin' ltac:(lia)) as [Hres _].
    rewrite Hres. exists (tm_due tm). split; [reflexivity|lia].
  - (* a timer was due before some event: it cannot be the deadline *)
    rewrite E. unfold run_timers. rewrite timers_phase_settled by apply fire_settled.
    destruct (fire_waiting tm W') as (Hp & _).
    rewrite Hp, (waiting_next_due W' Htm).
    inversion Hb as [|x l He _]; subst x l. apply not_beats_ge in Hdue.
    destruct (@next_timer_some _ _ Htm) as [Hin' _].
    destruct (Quiet _ tm W' Hin' ltac:(lia)) as [Hres _].
    rewrite Hres. exists (tm_due tm). split; [reflexivity|lia].
Qed.

End Settling.

(** When the counter, after the last event, is at or below the threshold,
    and a quiet period counted from the last event ends before the
    deadline timer is due, the call resolves, no later than that quiet
    period ends; however often the counter was above the threshold before.
    The quiet period and the deadline are the delays as the runtime takes
    them. *)
Theorem calms_down_then_resolves (P : Type) (pg : page) (o : options)
        (tr : list (event P)) (bound : nat) :
  Forall (fun e => ev_time e <= bound) tr ->
  (fold_left count_step (map (@ev_name P) tr) 0 <= requests (resolve_options pg o))%Z ->
  bound + timer_delay (timeout (resolve_options pg o)) <
    timer_delay (globalTimeout (resolve_options pg o)) ->
  exists t, promise (run pg o tr) = Some (Resolved, t) /\
            t <= bound + timer_delay (timeout (resolve_options pg o)).
Proof.
  intros Hb Hcount Hlt. unfold run.
  apply settling_run with (pg := pg); auto.
  - apply waiting_init.
  - split; [exact Hb|]. split; [simpl; lia|]. split.
    + repeat constructor.
    + intros _. eexists. split; [right; left; reflexivity|reflexivity].
Qed.

Lemma calms_down_then_resolves_witness :
  exists t, promise (run scenario_page scenario_options
                         [mkEvent 0 request tt; mkEvent 50 request tt;
                          mkEvent 100 requestfailed tt; mkEvent 900 requestfinished tt]) =
              Some (Resolved, t) /\
            t <= 900 + 500.
Proof.
  apply (@calms_down_then_resolves unit scenario_page scenario_options
           [mkEvent 0 request tt; mkEvent 50 request tt;
            mkEvent 100 requestfailed tt; mkEvent 900 requestfinished tt] 900).
  - repeat constructor; apply Nat.leb_le; vm_compute; reflexivity.
  - vm_compute. discriminate.
  - apply Nat.ltb_lt. vm_compute. reflexivity.
Defined.

(** ** Witness for the default threshold *)

Lemma default_threshold_one_quiet_timer_witness :
  one_quiet_timer (resolve_options scenario_page scenario_options)
    (deliver_all scenario_trace (waitForNetworkIdle scenario_page scenario_options)).
Proof.
  apply (@default_threshold_one_quiet_timer unit scenario_page scenario_options
           scenario_trace); reflexivity.
Defined.
